(** * retry: a shallow embedding of the retry executor

    The development follows the three Go files of the package: the error
    classification and the aggregate [Error] type, the executor [Do] with
    its configuration, and the options with the delay policies. *)

From Stdlib Require Import ZArith List String Ascii Bool Lia DecimalString.
Import ListNotations.
Local Open Scope string_scope.
Local Open Scope list_scope.
Local Open Scope Z_scope.
Set Warnings "-register-all".

(** ** Machine integers *)

(** Go's [uint] on a 64-bit platform. *)
Definition uint (z : Z) : Z := z mod 2 ^ 64.

(** Go's [int64], the representation of [time.Duration]. *)
Definition int64 (z : Z) : Z := (z + 2 ^ 63) mod 2 ^ 64 - 2 ^ 63.

(** [x << n] on an [int64] with an unsigned shift count: the bits shifted
    out are lost, and a count of 64 or more leaves zero. *)
Definition shl (x n : Z) : Z := int64 (Z.shiftl x n).

(** ** Results of code that may panic *)

Inductive result (A : Type) : Type :=
| Ok (a : A)
| Panic (msg : string).
Arguments Ok {A} a.
Arguments Panic {A} msg.

Definition rbind {A B : Type} (r : result A) (k : A -> result B) : result B :=
  match r with
  | Ok a => k a
  | Panic p => Panic p
  end.

(** ** Error values *)

(** A value of Go's interface type [error]. [ErrNil] is the nil interface;
    [errorString] is what [errors.New] allocates (the number stands for the
    pointer identity); [Wrap] is an error with an [Unwrap() error] method,
    such as the one built by [fmt.Errorf] with the verb [%w];
    [Unrecoverable] is the package's [unrecoverableError] struct (which has
    no [Unwrap] method); [Aggregate] is the package's [Error] slice. *)
Inductive error : Type :=
| ErrNil
| errorString (id : nat) (s : string)
| Wrap (msg : string) (err : error)
| Unrecoverable (err : error)
| Aggregate (errs : list error).

Definition is_nil (e : error) : bool :=
  match e with ErrNil => true | _ => false end.

(** [context.Canceled] and [context.DeadlineExceeded]: two leaves without
    [Unwrap], [Is] or [As] methods. *)
Definition Canceled : error := errorString 0 "context canceled".
Definition DeadlineExceeded : error := errorString 1 "context deadline exceeded".

Definition UnrecoverableError (err : error) : error := Unrecoverable err.

(** [errors.As(err, &ue)] for a target of type [unrecoverableError]: the
    chain is walked through [Unwrap], and an error with an [As] method (the
    aggregate) is asked first. A nil error matches nothing. *)
Fixpoint errors_As_unrecoverable (err : error) : bool :=
  match err with
  | ErrNil => false
  | errorString _ _ => false
  | Wrap _ inner => errors_As_unrecoverable inner
  | Unrecoverable _ => true
  | Aggregate errs => existsb errors_As_unrecoverable errs
  end.

Definition IsReconverableError (err : error) : bool :=
  errors_As_unrecoverable err.

(** The type assertion [err.(unrecoverableError)] panics unless the dynamic
    type of [err] is the marker struct itself. *)
Definition UnwrapUnrecoverableError (err : error) : result error :=
  if IsReconverableError err then
    match err with
    | Unrecoverable inner => Ok inner
    | _ => Panic "interface conversion: error is not retry.unrecoverableError"
    end
  else Ok err.

(** ** The aggregate error *)

Definition newline : string := String (ascii_of_nat 10) EmptyString.

Definition decimal (i : nat) : string := NilZero.string_of_uint (Nat.to_uint i).

(** The [Error()] method of each kind of error. Calling it on the nil
    interface is a nil dereference. The aggregate formats one line per slot,
    [# i: msg], and so fails as soon as one slot fails. *)
Fixpoint error_Error (e : error) : result string :=
  match e with
  | ErrNil => Panic "invalid memory address or nil pointer dereference"
  | errorString _ s => Ok s
  | Wrap msg _ => Ok msg
  | Unrecoverable inner => error_Error inner
  | Aggregate errs =>
      let fix lines (i : nat) (l : list error) : result (list string) :=
        match l with
        | [] => Ok []
        | v :: l' =>
            rbind (error_Error v) (fun m =>
            rbind (lines (S i) l') (fun res =>
            Ok (("# " ++ decimal i ++ ": " ++ m)%string :: res)))
        end in
      rbind (lines O errs) (fun res =>
      Ok ("Retry Error: " ++ newline ++ String.concat newline res)%string)
  end.

(** [Error.As] for a target of type [unrecoverableError]. *)
Definition Error_As_unrecoverable (e : list error) : bool :=
  existsb errors_As_unrecoverable e.

(** ** Slices of errors *)

(** [errs[i]] and [errs[i] = v] with Go's bounds check. *)
Definition at_index (errs : list error) (i : Z) : result error :=
  if (0 <=? i) && (i <? Z.of_nat (List.length errs)) then
    Ok (nth (Z.to_nat i) errs ErrNil)
  else Panic "index out of range".

Fixpoint update (errs : list error) (i : nat) (v : error) : list error :=
  match errs, i with
  | [], _ => []
  | _ :: tl, O => v :: tl
  | hd :: tl, S i' => hd :: update tl i' v
  end.

Definition set_index (errs : list error) (i : Z) (v : error) : result (list error) :=
  if (0 <=? i) && (i <? Z.of_nat (List.length errs)) then
    Ok (update errs (Z.to_nat i) v)
  else Panic "index out of range".

(** [make(Error, n)] for a length [n] of type [uint]. The runtime refuses
    the length, with a panic, when it is negative once converted to [int]
    or when the slice would take more than [maxAlloc] bytes; an [error] is
    an interface value of 16 bytes, and [maxAlloc] is [2^48] on a 64-bit
    platform. The machine running out of memory below that bound is not
    modelled. *)
Definition maxAlloc : Z := 2 ^ 48.
Definition errorSize : Z := 16.
Definition maxErrorLen : Z := maxAlloc / errorSize.

Definition make_Error (n : Z) : result (list error) :=
  if (2 ^ 63 <=? n) || (maxAlloc <? n * errorSize)
  then Panic "makeslice: len out of range"
  else Ok (repeat ErrNil (Z.to_nat n)).

(** ** Computations over a state *)

(** Code that reads and writes a state of type [St] and may panic; the
    state survives a panic. *)
Definition comp (St A : Type) : Type := St -> result A * St.

Definition ret {St A : Type} (a : A) : comp St A := fun s => (Ok a, s).

Definition bind {St A B : Type} (c : comp St A) (k : A -> comp St B) : comp St B :=
  fun s =>
    match c s with
    | (Ok a, s') => k a s'
    | (Panic p, s') => (Panic p, s')
    end.

Definition lift {St A : Type} (r : result A) : comp St A := fun s => (r, s).

Declare Scope comp_scope.
Delimit Scope comp_scope with comp.
Notation "x <- c ;; k" := (bind c (fun x => k))
  (at level 100, c at next level, right associativity) : comp_scope.
Notation "' p <- c ;; k" := (bind c (fun x => match x with p => k end))
  (at level 100, p pattern, c at next level, right associativity) : comp_scope.
Notation "c ;;; k" := (bind c (fun _ => k))
  (at level 100, right associativity) : comp_scope.

(** ** What the executor does to its environment *)

(** The calls the executor makes, in order: the operation with the error it
    returned, the retry predicate with its answer, the on-retry callback,
    the delay function, and the wait between two attempts with its outcome
    ([true] when the context was done before the timer fired). *)
Inductive event : Type :=
| EvOp (err : error)
| EvRetryIf (n : Z) (err : error) (b : bool)
| EvOnRetry (n : Z) (err : error)
| EvDelay (n : Z) (err : error)
| EvWait (d : Z) (done : bool).

Definition is_op (ev : event) : bool :=
  match ev with EvOp _ => true | _ => false end.

(** The number of invocations of the operation in a trace. *)
Definition invocations (t : list event) : nat := List.length (filter is_op t).

Section Retry.

(** The state of the caller's world: whatever the operation, the
    callbacks, the context and the random source read and write. *)
Context {Env : Type}.

(** [rand.Int63()] on the global source. *)
Variable rand_Int63 : Env -> Z * Env.

(** The value of [uint(math.Floor(math.Log2(float64(d))))], computed in
    floating point by the standard library. *)
Variable floorLog2 : Z -> Z.

Record World : Type := mkWorld { user : Env; trace : list event }.

Definition M (A : Type) : Type := comp World A.

Definition log (ev : event) (w : World) : World :=
  mkWorld (user w) (trace w ++ [ev]).

(** ** Types of the package *)

Definition Operation : Type := Env -> error * Env.
Definition OnRetryFn : Type := Z -> error -> Env -> Env.
Definition RetryIfFn : Type := Z -> error -> Env -> bool * Env.

(** [context.Context]: [Err] reads the state of the context; [Done_first d]
    is the race of the select statement between the channel [Done()] and a
    timer of [d], [true] when the context wins, with the state of the world
    once the select returns. *)
Record Context : Type := mkContext {
  Err : Env -> error;
  Done_first : Z -> Env -> bool * Env
}.

Definition Background : Context :=
  mkContext (fun _ => ErrNil) (fun _ s => (false, s)).

(** The fields of [config] that the delay options and the delay functions
    read and write. A [DelayFn] receives the [*config]; the package's delay
    functions touch these four fields only, so they are kept in a record of
    their own (the function stored in [config] could not take [config]
    itself as an argument). *)
Record delayConfig : Type := mkDelayConfig {
  randomTime : Z;
  maxDelayTime : Z;
  maxBackOffN : Z;
  delayTime : Z
}.

Definition DelayFn : Type := Z -> error -> delayConfig -> comp Env (Z * delayConfig).

Record config : Type := mkConfig {
  attempts : Z;
  onRetryFn : OnRetryFn;
  retryIfFn : RetryIfFn;
  delayFn : DelayFn;
  dconf : delayConfig;
  lastErrorOnly : bool;
  ctx : Context
}.

Definition Option : Type := config -> config.
Definition DelayOption : Type := config -> config.

Definition with_dconf (c : config) (d : delayConfig) : config :=
  mkConfig (attempts c) (onRetryFn c) (retryIfFn c) (delayFn c) d
           (lastErrorOnly c) (ctx c).

(** ** Defaults *)

Definition defaultAttempts : Z := 10.
Definition defaultOnRetryFn : OnRetryFn := fun n err s => s.
Definition defaultRetryIfFn : RetryIfFn :=
  fun n err s => (negb (IsReconverableError err), s).
Definition defaultDelayFn : DelayFn := fun n err c => ret (0, c).

Definition newDefaultConfig : config :=
  mkConfig defaultAttempts defaultOnRetryFn defaultRetryIfFn defaultDelayFn
           (mkDelayConfig 0 (2 ^ 63 - 1) 0 0) false Background.

(** ** Delay options and delay functions *)

Definition SetMaxDelayTimeFn (maxDelayTime' : Z) : DelayOption :=
  fun c => with_dconf c
    (mkDelayConfig (randomTime (dconf c)) maxDelayTime'
                   (maxBackOffN (dconf c)) (delayTime (dconf c))).

Definition SetFixTimeFn (fixDelayTime : Z) : DelayOption :=
  fun c => with_dconf c
    (mkDelayConfig (randomTime (dconf c)) (maxDelayTime (dconf c))
                   (maxBackOffN (dconf c)) fixDelayTime).

Definition FixDelayFn : DelayFn := fun n err c => ret (delayTime c, c).

Definition SetRamdomTimeFn (randomTime' : Z) : DelayOption :=
  fun c => with_dconf c
    (mkDelayConfig randomTime' (maxDelayTime (dconf c))
                   (maxBackOffN (dconf c)) (delayTime (dconf c))).

(** [rand.Int63n(n)]: panics unless [0 < n]; otherwise a number of
    [[0, n)] obtained from the source. *)
Definition rand_Int63n (n : Z) : comp Env Z :=
  fun s =>
    if n <=? 0 then (Panic "invalid argument to Int63n", s)
    else let (v, s') := rand_Int63 s in (Ok (v mod n), s').

Definition RandomDelayFn : DelayFn :=
  fun n err c => (v <- rand_Int63n (randomTime c) ;; ret (v, c))%comp.

Definition SetBackOffBeginTimeFn (backOffBeginTime : Z) : DelayOption :=
  fun c => with_dconf c
    (mkDelayConfig (randomTime (dconf c)) (maxDelayTime (dconf c))
                   (maxBackOffN (dconf c)) backOffBeginTime).

Definition BackOffDelayFn : DelayFn :=
  fun n err c =>
    let max := 62 in
    let c1 :=
      if delayTime c =? 0
      then mkDelayConfig (randomTime c) (maxDelayTime c) (maxBackOffN c) 1
      else c in
    let c2 :=
      if maxBackOffN c1 =? 0
      then mkDelayConfig (randomTime c1) (maxDelayTime c1)
                         (uint (max - floorLog2 (delayTime c1))) (delayTime c1)
      else c1 in
    let n' := if n >? maxBackOffN c2 then maxBackOffN c2 else n in
    ret (shl (delayTime c2) n', c2).

(** The sum of the delays of [delayFns], each called on the configuration
    the previous one left. *)
Fixpoint combine_from (delayFns : list DelayFn) (duration : Z)
  : DelayFn :=
  fun n e c =>
    match delayFns with
    | [] => ret (duration, c)
    | df :: rest =>
        ('(d, c') <- df n e c ;;
         combine_from rest (int64 (duration + d)) n e c')%comp
    end.

Definition CombineDelayFn (delayFns : list DelayFn) : DelayFn :=
  combine_from delayFns 0.

(** ** Options *)

Definition applyOptions (opts : list (config -> config)) (c : config) : config :=
  fold_left (fun c opt => opt c) opts c.

Definition WithDelayFn (df : DelayFn) (opts : list DelayOption) : Option :=
  fun c =>
    let c := applyOptions opts c in
    mkConfig (attempts c) (onRetryFn c) (retryIfFn c)
      (fun n e c =>
         ('(delayTime', c') <- df n e c ;;
          if delayTime' >? maxDelayTime c'
          then ret (maxDelayTime c', c')
          else ret (delayTime', c'))%comp)
      (dconf c) (lastErrorOnly c) (ctx c).

Definition WithContext (ctx' : Context) : Option :=
  fun c => mkConfig (attempts c) (onRetryFn c) (retryIfFn c) (delayFn c)
                    (dconf c) (lastErrorOnly c) ctx'.

Definition WithAttempts (attempts' : Z) : Option :=
  fun c => mkConfig attempts' (onRetryFn c) (retryIfFn c) (delayFn c)
                    (dconf c) (lastErrorOnly c) (ctx c).

Definition WithOnRetryFn (onretryFn : OnRetryFn) : Option :=
  fun c => mkConfig (attempts c) onretryFn (retryIfFn c) (delayFn c)
                    (dconf c) (lastErrorOnly c) (ctx c).

Definition WithRetryIfFn (retryIfFn' : RetryIfFn) : Option :=
  fun c => mkConfig (attempts c) (onRetryFn c) retryIfFn' (delayFn c)
                    (dconf c) (lastErrorOnly c) (ctx c).

Definition WithLastErrorOnly (lastErrorOnly' : bool) : Option :=
  fun c => mkConfig (attempts c) (onRetryFn c) (retryIfFn c) (delayFn c)
                    (dconf c) lastErrorOnly' (ctx c).

(** ** The executor *)

(** The calls of [Do] into its environment; each one is recorded. *)
Definition call_op (f : Operation) : M error :=
  fun w => let (err, s) := f (user w) in (Ok err, log (EvOp err) (mkWorld s (trace w))).

Definition call_retryIf (c : config) (n : Z) (err : error) : M bool :=
  fun w =>
    let (b, s) := retryIfFn c n err (user w) in
    (Ok b, log (EvRetryIf n err b) (mkWorld s (trace w))).

Definition call_onRetry (c : config) (n : Z) (err : error) : M unit :=
  fun w => (Ok tt, log (EvOnRetry n err) (mkWorld (onRetryFn c n err (user w)) (trace w))).

Definition call_delay (c : config) (n : Z) (err : error) (d : delayConfig)
  : M (Z * delayConfig) :=
  fun w =>
    let (r, s) := delayFn c n err d (user w) in
    (r, log (EvDelay n err) (mkWorld s (trace w))).

(** The select statement between [time.After(d)] and [ctx.Done()]. *)
Definition select_done (c : config) (d : Z) : M bool :=
  fun w =>
    let (done, s) := Done_first (ctx c) d (user w) in
    (Ok done, log (EvWait d done) (mkWorld s (trace w))).

Definition ctx_Err (c : config) : M error :=
  fun w => (Ok (Err (ctx c) (user w)), w).

(** What [Do] returns once the loop is left: the last error alone, or the
    whole slice. *)
Definition final (c : config) (errs : list error) (lastErrIndex : Z) : M error :=
  if lastErrorOnly c then lift (at_index errs lastErrIndex)
  else ret (Aggregate errs).

(** How one turn of the [for] loop ends: [Do] returns, or the loop goes
    on to the next attempt with the delay fields, the slice and the index
    of the last error as the turn left them. *)
Inductive outcome : Type :=
| Return (err : error)
| Next (d : delayConfig) (errs : list error) (lastErrIndex : Z).

(** The body of the [for] loop of [Do] at attempt [n]. [d] is the state
    of the delay fields of the configuration, which the delay function may
    update. A [break] of the loop leads to the final return of [Do]. *)
Definition attempt (f : Operation) (c : config) (d : delayConfig)
           (errs : list error) (n lastErrIndex : Z) : M outcome :=
  (err <- call_op f ;;
   if is_nil err then ret (Return ErrNil)
   else
     let lastErrIndex := if negb (lastErrorOnly c) then n else lastErrIndex in
     u <- lift (UnwrapUnrecoverableError err) ;;
     errs <- lift (set_index errs lastErrIndex u) ;;
     b <- call_retryIf c n err ;;
     if negb b then
       r <- final c errs lastErrIndex ;; ret (Return r)
     else
       call_onRetry c n err ;;;
       if n =? uint (attempts c - 1) then
         r <- final c errs lastErrIndex ;; ret (Return r)
       else
         '(t, d') <- call_delay c n err d ;;
         done <- select_done c t ;;
         if done then
           cerr <- ctx_Err c ;;
           u <- lift (UnwrapUnrecoverableError cerr) ;;
           errs <- lift (set_index errs lastErrIndex u) ;;
           r <- final c errs lastErrIndex ;; ret (Return r)
         else ret (Next d' errs lastErrIndex))%comp.

(** The [for] loop of [Do] from attempt [n] on; [None] when the fuel is
    used up before the loop is left. *)
Fixpoint attempt_loop (fuel : nat) (f : Operation) (c : config)
         (d : delayConfig) (errs : list error) (n lastErrIndex : Z)
         (w : World) : option (result error * World) :=
  match fuel with
  | O => None
  | S fuel' =>
      if negb (n <? attempts c) then Some (final c errs lastErrIndex w)
      else
        match attempt f c d errs n lastErrIndex w with
        | (Ok (Return r), w') => Some (Ok r, w')
        | (Ok (Next d' errs' lastErrIndex'), w') =>
            attempt_loop fuel' f c d' errs' (uint (n + 1)) lastErrIndex' w'
        | (Panic p, w') => Some (Panic p, w')
        end
  end.

(** The configuration [Do] works with: the options applied in order to
    the defaults. *)
Definition configure (opts : list Option) : config :=
  applyOptions opts newDefaultConfig.

(** [Do]. The slice of errors is made before the loop, and [make] may
    refuse its length. The loop is given one unit of fuel more than the
    budget, which the loop never uses up (lemma [Do_total] below). *)
Definition Do (f : Operation) (opts : list Option) (w : World)
  : option (result error * World) :=
  let cfg := configure opts in
  let err := Err (ctx cfg) (user w) in
  if negb (is_nil err) then Some (Ok err, w)
  else if attempts cfg =? 0 then Some (Ok ErrNil, w)
  else
    match make_Error (if lastErrorOnly cfg then 1 else attempts cfg) with
    | Ok errs =>
        attempt_loop (S (Z.to_nat (attempts cfg))) f cfg (dconf cfg) errs 0 0 w
    | Panic p => Some (Panic p, w)
    end.

End Retry.

Arguments World : clear implicits.
Arguments Operation : clear implicits.
Arguments OnRetryFn : clear implicits.
Arguments RetryIfFn : clear implicits.
Arguments Context : clear implicits.
Arguments DelayFn : clear implicits.
Arguments config : clear implicits.
Arguments Option : clear implicits.

(** * Notions used to state the properties *)

(** The innermost cause the spec speaks of: what is left of an error once
    every marker and every wrapper of its chain has been removed. *)
Fixpoint innermost_cause (err : error) : error :=
  match err with
  | Wrap _ inner => innermost_cause inner
  | Unrecoverable inner => innermost_cause inner
  | _ => err
  end.

(** A delay function keeps the ceiling when it returns the configuration
    with the maximum delay it received. *)
Definition keeps_ceiling {Env : Type} (df : DelayFn Env) : Prop :=
  forall n e c s d c' s',
    df n e c s = (Ok (d, c'), s') -> maxDelayTime c' = maxDelayTime c.

(** A delay function is clamped when, besides, its delay never exceeds that
    maximum. *)
Definition clamped {Env : Type} (g : DelayFn Env) : Prop :=
  forall n e c s t c' s',
    g n e c s = (Ok (t, c'), s') ->
    t <= maxDelayTime c /\ maxDelayTime c' = maxDelayTime c.

(** Every wait of the trace [t] lasts [m] at most. *)
Definition waits_below (m : Z) (t : list event) : Prop :=
  forall d done, In (EvWait d done) t -> d <= m.

(** The calls of one turn of the loop at attempt [n], in the five ways a
    turn can go; [continues] tells whether the loop goes on afterwards. *)
Definition turn_events {Env : Type} (c : config Env) (n : Z) (t : list event)
           (continues : bool) : Prop :=
  exists err,
    (t = [EvOp err] /\ continues = false) \/
    (t = [EvOp err; EvRetryIf n err false] /\ continues = false) \/
    (t = [EvOp err; EvRetryIf n err true; EvOnRetry n err] /\ continues = false) \/
    (t = [EvOp err; EvRetryIf n err true; EvOnRetry n err; EvDelay n err]
     /\ continues = false) \/
    (exists d done,
        t = [EvOp err; EvRetryIf n err true; EvOnRetry n err; EvDelay n err;
             EvWait d done]
        /\ continues = negb done /\ (n =? uint (attempts c - 1)) = false).

Definition goes_on (r : result outcome) : bool :=
  match r with Ok (Next _ _ _) => true | _ => false end.

(** What a trace of the loop started at attempt [n] says once the predicate
    has answered [false] at attempt [k]: [k - n + 1] invocations, and no
    callback and no delay for attempt [k] or a later one. *)
Definition stopped_by_predicate (n : Z) (t : list event) : Prop :=
  forall k e, In (EvRetryIf k e false) t ->
    n <= k /\
    Z.of_nat (invocations t) = k - n + 1 /\
    (forall j e', k <= j -> ~ In (EvOnRetry j e') t) /\
    (forall j e', k <= j -> ~ In (EvDelay j e') t).

(** ** Concrete environments *)

(** A caller without state of its own: the error of the tests, an operation
    that always fails, a context cancelled beforehand, a predicate that
    stops at attempt [k] and a random source that always draws [v]. *)
Definition plainErr : error := errorString 7 "error".

Definition alwaysFail (e : error) : Operation unit := fun s => (e, s).

Definition cancelledContext : Context unit :=
  mkContext (fun _ => Canceled) (fun _ s => (true, s)).

Definition emptyWorld : World unit := mkWorld tt [].

Definition retryBelow (k : Z) : RetryIfFn unit := fun n _ s => (n <? k, s).

Definition constantSource (v : Z) : unit -> Z * unit := fun s => (v, s).

(** What the tests of the package observe of a run: the message of the
    error returned, and the index the on-retry callback saw last. *)
Definition message (run : option (result error * World unit)) : result string :=
  match run with
  | Some (Ok err, _) => error_Error err
  | Some (Panic p, _) => Panic p
  | None => Panic "no result"
  end.

Definition retryNum (run : option (result error * World unit)) : Z :=
  match run with
  | Some (_, w) =>
      fold_left (fun last ev => match ev with EvOnRetry n _ => n | _ => last end)
                (trace w) 0
  | None => 0
  end.

(** * More of the package *)

(** ** [errors.Is] and [Error.Is] *)

(** [errors.Is(err, target)] for a target built by [errors.New], the pointer
    [id] to the message [s]. Such a target is comparable and has no method
    of its own: the chain of [err] is walked through [Unwrap], an error
    equal to the target is a match, and an aggregate is asked through its
    [Is] method. The marker struct has no [Unwrap] method, so the walk ends
    there. *)
Fixpoint errors_Is_errorString (err : error) (id : nat) (s : string) : bool :=
  match err with
  | ErrNil => false
  | errorString id' s' => Nat.eqb id' id && String.eqb s' s
  | Wrap _ inner => errors_Is_errorString inner id s
  | Unrecoverable _ => false
  | Aggregate errs => existsb (fun v => errors_Is_errorString v id s) errs
  end.

(** [Error.Is] for such a target. *)
Definition Error_Is_errorString (e : list error) (id : nat) (s : string) : bool :=
  existsb (fun v => errors_Is_errorString v id s) e.

(** The lines [Error.Error] collects in [res], from index [i] on. *)
Fixpoint Error_lines (i : nat) (l : list error) : result (list string) :=
  match l with
  | [] => Ok []
  | v :: l' =>
      rbind (error_Error v) (fun m =>
      rbind (Error_lines (S i) l') (fun res =>
      Ok (("# " ++ decimal i ++ ": " ++ m)%string :: res)))
  end.

(** ** Notions used to state the further properties *)

(** Induction on errors that reaches the slots of an aggregate. *)
Fixpoint error_nested_ind (P : error -> Prop)
         (Hnil : P ErrNil)
         (Hstr : forall id s, P (errorString id s))
         (Hwrap : forall msg inner, P inner -> P (Wrap msg inner))
         (Hmark : forall inner, P inner -> P (Unrecoverable inner))
         (Hagg : forall errs, Forall P errs -> P (Aggregate errs))
         (e : error) : P e :=
  match e with
  | ErrNil => Hnil
  | errorString id s => Hstr id s
  | Wrap msg inner =>
      Hwrap msg inner (error_nested_ind P Hnil Hstr Hwrap Hmark Hagg inner)
  | Unrecoverable inner =>
      Hmark inner (error_nested_ind P Hnil Hstr Hwrap Hmark Hagg inner)
  | Aggregate errs =>
      Hagg errs
        ((fix slots (l : list error) : Forall P l :=
            match l with
            | [] => Forall_nil P
            | v :: l' =>
                Forall_cons v (error_nested_ind P Hnil Hstr Hwrap Hmark Hagg v)
                            (slots l')
            end) errs)
  end.

(** [target] is found from [err] by unwrapping wrappers and by looking
    into the slots of aggregates, never by looking inside a marker. *)
Inductive in_chain (target : error) : error -> Prop :=
| chain_here : in_chain target target
| chain_unwrap (msg : string) (inner : error) :
    in_chain target inner -> in_chain target (Wrap msg inner)
| chain_slot (errs : list error) (v : error) :
    In v errs -> in_chain target v -> in_chain target (Aggregate errs).

(** [err] carries a marker: it is one, or one is found the same way. *)
Inductive carries_marker : error -> Prop :=
| marker_here (inner : error) : carries_marker (Unrecoverable inner)
| marker_unwrap (msg : string) (inner : error) :
    carries_marker inner -> carries_marker (Wrap msg inner)
| marker_slot (errs : list error) (v : error) :
    In v errs -> carries_marker v -> carries_marker (Aggregate errs).

(** [errs'] is [errs] but for the slot of attempt [n]. *)
Definition slots_kept (errs errs' : list error) (n : Z) : Prop :=
  List.length errs' = List.length errs /\
  forall k, k <> Z.to_nat n -> nth k errs' ErrNil = nth k errs ErrNil.

(** What [Do] returns once the context has won the wait after the attempt
    of index [k], given the error [cerr] of the context. *)
Definition cancelled_result {Env : Type} (c : config Env) (cerr : error)
           (k : nat) (r : result error) : Prop :=
  match UnwrapUnrecoverableError cerr with
  | Ok u =>
      if lastErrorOnly c then r = Ok u
      else exists errs, r = Ok (Aggregate errs) /\ nth k errs ErrNil = u
  | Panic p => r = Panic p
  end.

(** Counts over a trace: the failures the predicate accepted, the calls of
    the on-retry callback, and the waits that ran to the end of the timer. *)
Definition accepted (t : list event) : nat :=
  List.length (filter (fun ev => match ev with EvRetryIf _ _ true => true | _ => false end) t).

Definition callbacks (t : list event) : nat :=
  List.length (filter (fun ev => match ev with EvOnRetry _ _ => true | _ => false end) t).

Definition completed_waits (t : list event) : nat :=
  List.length (filter (fun ev => match ev with EvWait _ false => true | _ => false end) t).

(** The errors the operation returned in a run, in order. *)
Definition op_errors (t : list event) : list error :=
  flat_map (fun ev => match ev with EvOp e => [e] | _ => [] end) t.

(** No wait of the trace was cut by the context. *)
Definition no_cancel (t : list event) : Prop :=
  forall d, ~ In (EvWait d true) t.


(** The delay function [g] answers [v] on the delay fields [d] and leaves
    them, and the world, as they are. *)
Definition steady {Env : Type} (g : DelayFn Env) (d : delayConfig) (v : Z) : Prop :=
  forall n e s, g n e d s = (Ok (v, d), s).

(** Every wait of the trace [t] is asked to last exactly [v]. *)
Definition waits_exactly (v : Z) (t : list event) : Prop :=
  forall d done, In (EvWait d done) t -> d = v.

(** ** Further concrete environments *)

(** The operation that always fails with [e], in any world. *)
Definition alwaysFailing {Env : Type} (e : error) : Operation Env :=
  fun s => (e, s).

(** An operation of a caller that counts its invocations: it fails [k]
    times, then succeeds. *)
Definition failsThenSucceeds (k : nat) : Operation nat :=
  fun s => (if (s <? k)%nat then plainErr else ErrNil, S s).

(** A context whose state is a flag of the world: cancelled once the flag
    is raised, which happens during the first wait. *)
Definition cancelledDuringWait : Context bool :=
  mkContext (fun s : bool => if s then Canceled else ErrNil)
            (fun (_ : Z) (_ : bool) => (true, true)).

(** * Properties *)

(** ** Proof steps shared by the lemmas on the loop *)

Ltac step_match :=
  match goal with
  | |- context [if negb ?b then _ else _] => destruct b eqn:?; cbn [negb]
  | |- context [match ?x with _ => _ end] =>
      lazymatch x with
      | context [match _ with _ => _ end] => fail
      | _ => destruct x eqn:?
      end
  end.

Ltac close_turn :=
  unfold turn_events; eexists;
  first [ left; split; reflexivity
        | right; left; split; reflexivity
        | right; right; left; split; reflexivity
        | right; right; right; left; split; reflexivity
        | right; right; right; right; do 2 eexists;
          repeat split; (reflexivity || assumption) ].

Ltac in_cases H :=
  cbn [In] in H;
  repeat match type of H with
         | _ \/ _ => destruct H as [H|H]
         end;
  try discriminate H; try contradiction.

Ltac unfold_turn :=
  unfold attempt, bind, call_op, call_retryIf, call_onRetry, call_delay,
    select_done, ctx_Err, final, lift, ret, log;
  cbn [user trace].

Ltac fields := cbn [delayTime maxBackOffN randomTime maxDelayTime].

(** ** Making the slice of errors *)

Lemma maxErrorLen_value : maxErrorLen = 2 ^ 44.
Proof. reflexivity. Qed.

Lemma make_Error_fits (n : Z) :
  n <= maxErrorLen -> make_Error n = Ok (repeat ErrNil (Z.to_nat n)).
Proof.
  intros Hn. rewrite maxErrorLen_value in Hn. unfold make_Error, maxAlloc, errorSize.
  destruct (Z.leb_spec (2 ^ 63) n); [lia|].
  destruct (Z.ltb_spec (2 ^ 48) (n * 16)); [lia|]. reflexivity.
Qed.

Lemma make_Error_too_long (n : Z) :
  maxErrorLen < n -> make_Error n = Panic "makeslice: len out of range".
Proof.
  intros Hn. rewrite maxErrorLen_value in Hn. unfold make_Error, maxAlloc, errorSize.
  destruct (Z.leb_spec (2 ^ 63) n); [reflexivity|].
  destruct (Z.ltb_spec (2 ^ 48) (n * 16)); [reflexivity|lia].
Qed.

Lemma make_Error_inv (n : Z) (errs : list error) :
  make_Error n = Ok errs -> errs = repeat ErrNil (Z.to_nat n) /\ n <= maxErrorLen.
Proof.
  intros H. destruct (Z.le_gt_cases n maxErrorLen) as [Hn|Hn].
  - rewrite make_Error_fits in H by exact Hn. inversion H. auto.
  - rewrite make_Error_too_long in H by exact Hn. discriminate.
Qed.

Lemma make_Error_one : make_Error 1 = Ok [ErrNil].
Proof. reflexivity. Qed.

(** ** The tests of the package, replayed *)

Example TestDoDefaultTimes :
  let run := Do (alwaysFail plainErr) [] emptyWorld in
  retryNum run = defaultAttempts - 1 /\
  message run = Ok "Retry Error: 
# 0: error
# 1: error
# 2: error
# 3: error
# 4: error
# 5: error
# 6: error
# 7: error
# 8: error
# 9: error".
Proof. split; reflexivity. Qed.

Example TestDoRetryIf :
  retryNum (Do (alwaysFail plainErr) [WithRetryIfFn (retryBelow 6)] emptyWorld) = 5.
Proof. reflexivity. Qed.

Example TestUnRecoverableError :
  let run := Do (alwaysFail (UnrecoverableError plainErr))
                [WithLastErrorOnly true] emptyWorld in
  retryNum run = 0 /\ exists w, run = Some (Ok plainErr, w).
Proof. split; [reflexivity|]. eexists. reflexivity. Qed.

Example TestContextCanceled :
  let run := Do (alwaysFail (UnrecoverableError plainErr))
                [WithContext cancelledContext] emptyWorld in
  retryNum run = 0 /\ message run = Ok "context canceled".
Proof. split; reflexivity. Qed.

Example TestDoFixDelayFn :
  let run := Do (alwaysFail plainErr)
                [WithDelayFn FixDelayFn [SetFixTimeFn 100000000];
                 WithLastErrorOnly true; WithAttempts 2] emptyWorld in
  retryNum run = 1 /\
  (exists w, run = Some (Ok plainErr, w) /\
             In (EvWait 100000000 false) (trace w)).
Proof. split; [reflexivity|]. eexists. split; [reflexivity|]. cbn. tauto. Qed.

(** ** Error classification *)

Lemma IsReconverableError_marker (err : error) :
  IsReconverableError (Unrecoverable err) = true.
Proof. reflexivity. Qed.

Lemma UnwrapUnrecoverableError_plain (err : error) :
  IsReconverableError err = false -> UnwrapUnrecoverableError err = Ok err.
Proof. intros H. unfold UnwrapUnrecoverableError. now rewrite H. Qed.

Lemma UnwrapUnrecoverableError_marker (err : error) :
  UnwrapUnrecoverableError (Unrecoverable err) = Ok err.
Proof. reflexivity. Qed.

(** C6, as the spec states it, fails: on a marker that wraps another marker
    [UnwrapUnrecoverableError] removes one marker only, so the result is not
    the innermost cause; and on a marker wrapped inside another error the
    type assertion panics. *)
Lemma UnwrapUnrecoverableError_not_innermost :
  let nested := Unrecoverable (Unrecoverable plainErr) in
  let wrapped := Wrap "wrapped" (Unrecoverable plainErr) in
  IsReconverableError nested = true /\
  innermost_cause nested = plainErr /\
  UnwrapUnrecoverableError nested = Ok (Unrecoverable plainErr) /\
  UnwrapUnrecoverableError nested <> Ok (innermost_cause nested) /\
  IsReconverableError wrapped = true /\
  UnwrapUnrecoverableError wrapped <> Ok (innermost_cause wrapped).
Proof. cbv. repeat split; discriminate. Qed.

(** C6 (amended): when [err] is itself the marker value,
    [UnwrapUnrecoverableError] returns the error the marker directly wraps;
    when no marker is found in the chain of [err], it returns [err]
    unchanged. *)
Theorem UnwrapUnrecoverableError_one_layer (err : error) :
  UnwrapUnrecoverableError (Unrecoverable err) = Ok err /\
  (IsReconverableError err = false -> UnwrapUnrecoverableError err = Ok err).
Proof.
  split.
  - apply UnwrapUnrecoverableError_marker.
  - apply UnwrapUnrecoverableError_plain.
Qed.

Lemma UnwrapUnrecoverableError_one_layer_witness :
  IsReconverableError plainErr = false /\
  UnwrapUnrecoverableError (Unrecoverable plainErr) = Ok plainErr /\
  UnwrapUnrecoverableError plainErr = Ok plainErr.
Proof.
  split; [reflexivity|].
  split.
  - exact (proj1 (UnwrapUnrecoverableError_one_layer plainErr)).
  - apply (proj2 (UnwrapUnrecoverableError_one_layer plainErr)). reflexivity.
Defined.

(** ** The entry of the executor *)

Section Entry.

Context {Env : Type}.
Variables (f : Operation Env) (opts : list (Option Env)) (w : World Env).

(** C4: when the context of the configuration is already done on entry,
    [Do] returns the error of the context and leaves the world as it was:
    the operation is not invoked. *)
Theorem Do_context_done_on_entry :
  is_nil (Err (ctx (configure opts)) (user w)) = false ->
  Do f opts w = Some (Ok (Err (ctx (configure opts)) (user w)), w) /\
  forall r w', Do f opts w = Some (r, w') ->
    invocations (trace w') = invocations (trace w).
Proof.
  intros Hdone.
  assert (HDo : Do f opts w = Some (Ok (Err (ctx (configure opts)) (user w)), w)).
  { unfold Do. now rewrite Hdone. }
  split; [exact HDo|].
  intros r w' H. rewrite HDo in H. now inversion H.
Qed.

(** C5 (amended): with an attempt budget of zero and a context that is
    not done on entry, [Do] returns nil and leaves the world as it was:
    the operation is not invoked. *)
Theorem Do_zero_attempts :
  attempts (configure opts) = 0 ->
  is_nil (Err (ctx (configure opts)) (user w)) = true ->
  Do f opts w = Some (Ok ErrNil, w).
Proof.
  intros Hzero Hlive. unfold Do. now rewrite Hlive, Hzero.
Qed.

End Entry.

Lemma Do_context_done_on_entry_witness :
  let opts := [WithContext cancelledContext] in
  is_nil (Err (ctx (configure opts)) (user emptyWorld)) = false /\
  Do (alwaysFail plainErr) opts emptyWorld = Some (Ok Canceled, emptyWorld).
Proof.
  split; [reflexivity|].
  apply (Do_context_done_on_entry (alwaysFail plainErr)
           [WithContext cancelledContext] emptyWorld).
  reflexivity.
Defined.

(** C5, as the spec states it, fails: with a budget of zero and a context
    that is already cancelled, [Do] returns the cancellation error, not
    nil. *)
Lemma Do_zero_attempts_cancelled :
  let opts := [WithAttempts 0; WithContext cancelledContext] in
  attempts (configure opts) = 0 /\
  Do (alwaysFail plainErr) opts emptyWorld = Some (Ok Canceled, emptyWorld) /\
  Do (alwaysFail plainErr) opts emptyWorld <> Some (Ok ErrNil, emptyWorld).
Proof. cbv. repeat split; discriminate. Qed.

Lemma Do_zero_attempts_witness :
  let opts := [WithAttempts (Env := unit) 0] in
  attempts (configure opts) = 0 /\
  is_nil (Err (ctx (configure opts)) (user emptyWorld)) = true /\
  Do (alwaysFail plainErr) opts emptyWorld = Some (Ok ErrNil, emptyWorld).
Proof.
  split; [reflexivity|]. split; [reflexivity|].
  apply (Do_zero_attempts (alwaysFail plainErr) [WithAttempts 0] emptyWorld);
    reflexivity.
Defined.

(** ** Delay policies *)

Section Policies.

Context {Env : Type}.
Variable rand_Int63 : Env -> Z * Env.
Variable floorLog2 : Z -> Z.

(** C7: the backoff delay is [base << min(n, maxExponent)], where [base] is
    the configured delay, or 1 when that is zero, and [maxExponent] is the
    cached exponent when there is one, or else 62 minus the logarithm of
    [base]; both are stored in the configuration, and every later call on
    that configuration uses the same two values and leaves it unchanged. *)
Theorem BackOffDelayFn_shift (n : Z) (err : error) (c : delayConfig) (s : Env) :
  let base := if delayTime c =? 0 then 1 else delayTime c in
  let maxExponent :=
    if maxBackOffN c =? 0 then uint (62 - floorLog2 base) else maxBackOffN c in
  let c' := mkDelayConfig (randomTime c) (maxDelayTime c) maxExponent base in
  BackOffDelayFn floorLog2 n err c s = (Ok (shl base (Z.min n maxExponent), c'), s) /\
  forall n' err' (s' : Env),
    BackOffDelayFn floorLog2 n' err' c' s'
    = (Ok (shl base (Z.min n' maxExponent), c'), s').
Proof.
  assert (Hmin : forall a b, (if a >? b then b else a) = Z.min a b).
  { intros a b. destruct (Z.gtb_spec a b); lia. }
  destruct c as [rt mx mb dt]. cbv zeta. fields.
  split; [|intros n' err' s']; unfold BackOffDelayFn, ret; fields.
  - destruct (dt =? 0); fields; destruct (mb =? 0); fields; now rewrite Hmin.
  - set (base := if dt =? 0 then 1 else dt).
    assert (Hbase : (base =? 0) = false).
    { subst base. destruct (Z.eqb_spec dt 0); [reflexivity|]. now apply Z.eqb_neq. }
    rewrite Hbase. fields.
    destruct (mb =? 0) eqn:Hmb.
    + destruct (uint (62 - floorLog2 base) =? 0) eqn:Hz; fields; rewrite Hmin.
      * apply Z.eqb_eq in Hz. now rewrite Hz.
      * reflexivity.
    + rewrite Hmb. fields. now rewrite Hmin.
Qed.

(** With a positive bound the random delay lies in [[0, bound)]. *)
Lemma RandomDelayFn_range (n : Z) (err : error) (c : delayConfig) (s : Env) :
  0 < randomTime c ->
  exists v s', RandomDelayFn rand_Int63 n err c s = (Ok (v, c), s') /\
               0 <= v < randomTime c.
Proof.
  intros Hpos. unfold RandomDelayFn, bind, rand_Int63n, ret.
  destruct (Z.leb_spec (randomTime c) 0); [lia|].
  destruct (rand_Int63 s) as [v s']. exists (v mod randomTime c), s'.
  split; [reflexivity|]. now apply Z.mod_pos_bound.
Qed.

Lemma FixDelayFn_keeps_ceiling : keeps_ceiling (@FixDelayFn Env).
Proof. intros n e c s d c' s' H. inversion H. reflexivity. Qed.

Lemma RandomDelayFn_keeps_ceiling : keeps_ceiling (RandomDelayFn rand_Int63).
Proof.
  intros n e c s d c' s'. unfold RandomDelayFn, bind, rand_Int63n, ret.
  destruct (randomTime c <=? 0); [discriminate|].
  destruct (rand_Int63 s). intros H. inversion H. reflexivity.
Qed.

Lemma BackOffDelayFn_keeps_ceiling : keeps_ceiling (BackOffDelayFn (Env := Env) floorLog2).
Proof.
  intros n e c s d c' s'. unfold BackOffDelayFn, ret.
  destruct (delayTime c =? 0); fields;
    destruct (maxBackOffN c =? 0); intros H; inversion H; reflexivity.
Qed.

Lemma combine_from_keeps_ceiling (delayFns : list (DelayFn Env)) :
  Forall keeps_ceiling delayFns ->
  forall duration, keeps_ceiling (combine_from delayFns duration).
Proof.
  induction 1 as [|df rest Hdf _ IH]; intros duration n e c s d c' s'.
  - cbn. unfold ret. intros H. inversion H. reflexivity.
  - cbn. unfold bind. destruct (df n e c s) as [[[d1 c1]|p] s1] eqn:E.
    + intros H. apply IH in H. apply Hdf in E. congruence.
    + discriminate.
Qed.

Lemma CombineDelayFn_keeps_ceiling (delayFns : list (DelayFn Env)) :
  Forall keeps_ceiling delayFns -> keeps_ceiling (CombineDelayFn delayFns).
Proof. intros H. now apply combine_from_keeps_ceiling. Qed.

Lemma WithDelayFn_clamped (df : DelayFn Env) (opts : list (Option Env))
      (c0 : config Env) :
  keeps_ceiling df -> clamped (delayFn (WithDelayFn df opts c0)).
Proof.
  intros Hkeep n e c s t c' s'. unfold WithDelayFn. cbn [delayFn]. unfold bind, ret.
  destruct (df n e c s) as [[[d1 c1]|p] s1] eqn:E; [|discriminate].
  apply Hkeep in E.
  destruct (Z.gtb_spec d1 (maxDelayTime c1)) as [Hgt|Hle];
    intros Hrun; inversion Hrun; subst; split; (lia || assumption).
Qed.

End Policies.

(** C9 fails on the code: with the random bound left at zero, as in the
    default configuration, [RandomDelayFn] panics inside [rand.Int63n]
    instead of returning a duration, and so does [Do] at the first delay. *)
Theorem RandomDelayFn_unset_bound_panics :
  (forall (Env : Type) (rand : Env -> Z * Env) n err s,
      randomTime (dconf (@newDefaultConfig Env)) = 0 /\
      RandomDelayFn rand n err (dconf (@newDefaultConfig Env)) s
      = (Panic "invalid argument to Int63n", s)) /\
  exists w',
    Do (alwaysFail plainErr) [WithDelayFn (RandomDelayFn (constantSource 5)) []]
       emptyWorld
    = Some (Panic "invalid argument to Int63n", w').
Proof.
  split; [intros; split; reflexivity|]. eexists. reflexivity.
Qed.

(** ** One turn of the loop, and the loop *)

Section Loop.

Context {Env : Type}.
Variable f : Operation Env.

Lemma attempt_trace c d errs n li w r w' :
  attempt f c d errs n li w = (r, w') ->
  exists t, trace w' = trace w ++ t /\ turn_events c n t (goes_on r).
Proof.
  unfold_turn. repeat step_match.
  all: intros Hrun; inversion Hrun; subst; clear Hrun; cbn [trace goes_on];
    rewrite <- ?app_assoc; cbn [app]; eexists; (split; [reflexivity|]).
  all: close_turn.
Qed.

Lemma turn_stopped (c : config Env) n t b :
  turn_events c n t b -> b = false -> stopped_by_predicate n t.
Proof.
  intros [err H] Hb k e Hin.
  destruct H as [[-> _]|[[-> _]|[[-> _]|[[-> _]|[d [done [-> _]]]]]]];
    in_cases Hin.
  inversion Hin; subst. cbn. repeat split; try lia.
  all: intros j e' _ Hin'; in_cases Hin'.
Qed.

(** The attempt index does not wrap around: the loop is left at the last
    attempt of the budget at the latest. *)
Lemma next_attempt_in_range (c : config Env) (n : Z) :
  0 <= n <= uint (attempts c - 1) ->
  n <> uint (attempts c - 1) ->
  uint (n + 1) = n + 1 /\ 0 <= n + 1 <= uint (attempts c - 1).
Proof.
  intros Hn Hlast. split; [|lia].
  unfold uint in *. apply Z.mod_small.
  pose proof (Z.mod_pos_bound (attempts c - 1) (2 ^ 64) ltac:(lia)). lia.
Qed.

Lemma turn_continues (c : config Env) n t :
  turn_events c n t true ->
  n <> uint (attempts c - 1) /\
  exists err d,
    t = [EvOp err; EvRetryIf n err true; EvOnRetry n err; EvDelay n err;
         EvWait d false].
Proof.
  intros [err H].
  destruct H as [[_ Hc]|[[_ Hc]|[[_ Hc]|[[_ Hc]|[d [done [-> [Hdone Hlast]]]]]]]];
    try discriminate.
  destruct done; [discriminate|]. apply Z.eqb_neq in Hlast. eauto.
Qed.

Lemma loop_trace (fuel : nat) : forall c d errs n li w r w',
  0 <= n <= uint (attempts c - 1) ->
  attempt_loop fuel f c d errs n li w = Some (r, w') ->
  exists t, trace w' = trace w ++ t /\ stopped_by_predicate n t.
Proof.
  induction fuel as [|fuel IH]; intros c d errs n li w r w' Hn;
    cbn [attempt_loop]; [discriminate|].
  destruct (n <? attempts c); cbn [negb].
  - destruct (attempt f c d errs n li w) as [ro w1] eqn:E.
    destruct (attempt_trace _ _ _ _ _ _ _ _ E) as [t1 [Ht1 Hturn]].
    destruct ro as [[ret|d1 errs1 li1]|p]; cbn [goes_on] in Hturn.
    + intros H. inversion H; subst. exists t1. split; [exact Ht1|].
      eapply turn_stopped; eauto.
    + intros H. destruct (turn_continues _ _ _ Hturn) as [Hlast [err [t0 ->]]].
      destruct (next_attempt_in_range c n Hn Hlast) as [Hwrap Hn'].
      rewrite Hwrap in H. apply IH in H; [|exact Hn'].
      destruct H as [t2 [Ht2 Hstop]].
      eexists. split; [rewrite Ht2, Ht1, <- app_assoc; reflexivity|].
      intros k e Hin. apply in_app_or in Hin. destruct Hin as [Hin|Hin];
        [in_cases Hin|].
      destruct (Hstop k e Hin) as [Hk [Hcount [Hon Hdel]]].
      split; [lia|]. split.
      { unfold invocations in *. rewrite filter_app, length_app. cbn. lia. }
      split; intros j e' Hj Hin'; apply in_app_or in Hin';
        (destruct Hin' as [Hin'|Hin']; [in_cases Hin'; inversion Hin'; lia|]).
      * eapply Hon; eauto.
      * eapply Hdel; eauto.
    + intros H. inversion H; subst. exists t1. split; [exact Ht1|].
      eapply turn_stopped; eauto.
  - unfold final, lift, ret. intros H. exists []. split.
    + destruct (lastErrorOnly c); inversion H; now rewrite app_nil_r.
    + intros k e [].
Qed.

Lemma loop_total (fuel : nat) : forall c d errs n li w,
  0 <= n <= uint (attempts c - 1) ->
  (Z.to_nat (uint (attempts c - 1) - n) < fuel)%nat ->
  exists r w', attempt_loop fuel f c d errs n li w = Some (r, w').
Proof.
  induction fuel as [|fuel IH]; intros c d errs n li w Hn Hfuel; [lia|].
  cbn [attempt_loop]. destruct (n <? attempts c); cbn [negb];
    [|destruct (final c errs li w); eauto].
  destruct (attempt f c d errs n li w) as [ro w1] eqn:E.
  destruct ro as [[ret|d1 errs1 li1]|p]; [eauto| |eauto].
  destruct (attempt_trace _ _ _ _ _ _ _ _ E) as [t1 [_ Hturn]].
  cbn [goes_on] in Hturn. apply turn_continues in Hturn. destruct Hturn as [Hlast _].
  destruct (next_attempt_in_range c n Hn Hlast) as [Hwrap Hn'].
  rewrite Hwrap. apply IH; lia.
Qed.

Lemma first_attempt_in_range (c : config Env) :
  0 <= 0 <= uint (attempts c - 1).
Proof.
  unfold uint. pose proof (Z.mod_pos_bound (attempts c - 1) (2 ^ 64) ltac:(lia)). lia.
Qed.

(** [Do] always comes to an end: the fuel it gives the loop is enough. *)
Lemma Do_total (opts : list (Option Env)) (w : World Env) :
  exists r w', Do f opts w = Some (r, w').
Proof.
  unfold Do. destruct (negb (is_nil _)); [eauto|].
  destruct (Z.eqb_spec (attempts (configure opts)) 0) as [|Hnz]; [eauto|].
  destruct (make_Error _) as [errs|p]; [|eauto].
  destruct (Z.ltb_spec 0 (attempts (configure opts))) as [Hpos|Hneg].
  - apply loop_total; [apply first_attempt_in_range|].
    unfold uint.
    pose proof (Z.mod_le (attempts (configure opts) - 1) (2 ^ 64) ltac:(lia) ltac:(lia)).
    lia.
  - cbn [attempt_loop].
    destruct (Z.ltb_spec 0 (attempts (configure opts))); [lia|]. cbn [negb].
    match goal with |- context [final ?c ?e ?i ?w] => destruct (final c e i w) end.
    eauto.
Qed.

(** The events of a run of [Do] that makes no attempt. *)
Lemma no_events (w' : World Env) (t : list event) :
  trace w' = trace w' ++ t -> t = [].
Proof.
  intros Ht. rewrite <- (app_nil_r (trace w')) in Ht at 1.
  apply app_inv_head in Ht. now subst.
Qed.

(** A run of [Do] either ends before the loop, with the world as it was,
    or is a run of the loop on the slice [make] gave. *)
Lemma Do_inv (opts : list (Option Env)) (w : World Env) r w' :
  Do f opts w = Some (r, w') ->
  let c := configure opts in
  (w' = w /\
   (r = Ok (Err (ctx c) (user w)) /\ is_nil (Err (ctx c) (user w)) = false \/
    r = Ok ErrNil /\ attempts c = 0 \/
    exists p, r = Panic p /\ attempts c <> 0 /\
              make_Error (if lastErrorOnly c then 1 else attempts c) = Panic p)) \/
  (is_nil (Err (ctx c) (user w)) = true /\ attempts c <> 0 /\
   exists errs,
     make_Error (if lastErrorOnly c then 1 else attempts c) = Ok errs /\
     attempt_loop (S (Z.to_nat (attempts c))) f c (dconf c) errs 0 0 w
     = Some (r, w')).
Proof.
  unfold Do. cbv zeta.
  destruct (is_nil (Err (ctx (configure opts)) (user w))) eqn:Hlive; cbn [negb].
  - destruct (Z.eqb_spec (attempts (configure opts)) 0) as [Hz|Hnz].
    + intros H. inversion H. left. auto.
    + destruct (make_Error _) as [errs|p] eqn:Hmake.
      * intros H. right. eauto.
      * intros H. inversion H. left. split; [reflexivity|]. right. right. eauto.
  - intros H. inversion H. left. auto.
Qed.

(** C3: [Do] returns, and when the retry predicate answered [false] at
    attempt [k] the operation was invoked exactly [k + 1] times, and neither
    the on-retry callback nor the delay function was called for attempt [k]
    or any later one. *)
Theorem Do_predicate_stop (opts : list (Option Env)) (w : World Env) :
  (exists r w', Do f opts w = Some (r, w')) /\
  forall r w' t k e,
    Do f opts w = Some (r, w') ->
    trace w' = trace w ++ t ->
    In (EvRetryIf k e false) t ->
    Z.of_nat (invocations t) = k + 1 /\
    (forall j e', k <= j -> ~ In (EvOnRetry j e') t) /\
    (forall j e', k <= j -> ~ In (EvDelay j e') t).
Proof.
  split; [apply Do_total|].
  intros r w' t k e HDo Ht Hin.
  assert (Hstop : stopped_by_predicate 0 t).
  { apply Do_inv in HDo. destruct HDo as [[-> _]|[_ [_ [errs [_ HDo]]]]].
    { apply no_events in Ht. subst. destruct Hin. }
    apply loop_trace in HDo; [|apply first_attempt_in_range].
    destruct HDo as [t' [Ht' Hstop]]. rewrite Ht' in Ht.
    apply app_inv_head in Ht. now subst. }
  destruct (Hstop k e Hin) as [_ [Hcount [Hon Hdel]]].
  repeat split; [lia | exact Hon | exact Hdel].
Qed.

Lemma attempt_waits c d errs n li w r w' :
  clamped (delayFn c) ->
  attempt f c d errs n li w = (r, w') ->
  exists t,
    trace w' = trace w ++ t /\ waits_below (maxDelayTime d) t /\
    forall d1 errs1 li1, r = Ok (Next d1 errs1 li1) ->
                         maxDelayTime d1 = maxDelayTime d.
Proof.
  intros Hclamp. unfold_turn. repeat step_match.
  all: intros Hrun; inversion Hrun; subst; clear Hrun; cbn [trace];
    rewrite <- ?app_assoc; cbn [app]; eexists; (split; [reflexivity|]).
  all: split; [intros t0 done Hin; in_cases Hin
              | intros d1 errs1 li1 Hr; try discriminate Hr].
  all: match goal with
       | E : delayFn _ _ _ _ _ = (Ok _, _) |- _ => apply Hclamp in E; destruct E
       end.
  all: try (inversion Hin; subst; assumption).
  all: inversion Hr; subst; assumption.
Qed.

Lemma loop_waits (fuel : nat) : forall c d errs n li w r w',
  clamped (delayFn c) ->
  attempt_loop fuel f c d errs n li w = Some (r, w') ->
  exists t, trace w' = trace w ++ t /\ waits_below (maxDelayTime d) t.
Proof.
  induction fuel as [|fuel IH]; intros c d errs n li w r w' Hclamp;
    cbn [attempt_loop]; [discriminate|].
  destruct (n <? attempts c); cbn [negb].
  - destruct (attempt f c d errs n li w) as [ro w1] eqn:E.
    destruct (attempt_waits _ _ _ _ _ _ _ _ Hclamp E) as [t1 [Ht1 [Hw1 Hnext]]].
    destruct ro as [[ret|d1 errs1 li1]|p].
    + intros H. inversion H; subst. eauto.
    + intros H. apply IH in H; [|exact Hclamp].
      destruct H as [t2 [Ht2 Hw2]]. exists (t1 ++ t2). split.
      * rewrite Ht2, Ht1, app_assoc. reflexivity.
      * rewrite (Hnext _ _ _ eq_refl) in Hw2.
        intros t0 done Hin. apply in_app_or in Hin. destruct Hin; eauto.
    + intros H. inversion H; subst. eauto.
  - unfold final, lift, ret. intros H. exists []. split.
    + destruct (lastErrorOnly c); inversion H; now rewrite app_nil_r.
    + intros t0 done [].
Qed.

Lemma Do_waits (opts : list (Option Env)) (w : World Env) r w' t :
  clamped (delayFn (configure opts)) ->
  Do f opts w = Some (r, w') ->
  trace w' = trace w ++ t ->
  waits_below (maxDelayTime (dconf (configure opts))) t.
Proof.
  intros Hclamp HDo Ht.
  apply Do_inv in HDo. destruct HDo as [[-> _]|[_ [_ [errs [_ HDo]]]]].
  { apply no_events in Ht. subst. intros t0 done []. }
  apply loop_waits in HDo; [|exact Hclamp].
  destruct HDo as [t' [Ht' Hw]]. rewrite Ht' in Ht.
  apply app_inv_head in Ht. now subst.
Qed.

Lemma configure_last (opts : list (Option Env)) (opt : Option Env) :
  configure (opts ++ [opt]) = opt (configure opts).
Proof. unfold configure, applyOptions. now rewrite fold_left_app. Qed.

(** C8: the function [WithDelayFn] installs answers the delay of the policy
    cut at the maximum delay of the configuration: never more than that
    maximum, and exactly the maximum when the policy computed more; and
    every wait of a run of [Do] configured with it lasts that maximum at
    most. The policy is any delay function that leaves the maximum as
    configured, as the fixed, random and backoff policies and their
    combinations do. *)
Theorem WithDelayFn_ceiling (df : DelayFn Env) (dopts : list (Option Env))
        (c0 : config Env) (n : Z) (e : error) (c : delayConfig) (s : Env)
        (opts : list (Option Env)) (w : World Env) :
  keeps_ceiling df ->
  match df n e c s with
  | (Ok (d, c'), s') =>
      exists t,
        delayFn (WithDelayFn df dopts c0) n e c s = (Ok (t, c'), s') /\
        t <= maxDelayTime c /\
        (d > maxDelayTime c -> t = maxDelayTime c) /\
        (d <= maxDelayTime c -> t = d)
  | (Panic p, s') =>
      delayFn (WithDelayFn df dopts c0) n e c s = (Panic p, s')
  end /\
  let opts' := opts ++ [WithDelayFn df dopts] in
  forall r w' t,
    Do f opts' w = Some (r, w') ->
    trace w' = trace w ++ t ->
    waits_below (maxDelayTime (dconf (configure opts'))) t.
Proof.
  intros Hkeep. split.
  - unfold WithDelayFn. cbn [delayFn]. unfold bind.
    destruct (df n e c s) as [[[d c']|p] s'] eqn:E; [|reflexivity].
    apply Hkeep in E. rewrite E. unfold ret.
    destruct (Z.gtb_spec d (maxDelayTime c)).
    + exists (maxDelayTime c). repeat split; lia.
    + exists d. repeat split; lia.
  - intros opts' r w' t HDo Ht. eapply Do_waits; eauto.
    subst opts'. rewrite configure_last. now apply WithDelayFn_clamped.
Qed.

End Loop.

Lemma Do_predicate_stop_witness :
  let opts := [WithRetryIfFn (retryBelow 2)] in
  let t := [EvOp plainErr; EvRetryIf 0 plainErr true; EvOnRetry 0 plainErr;
            EvDelay 0 plainErr; EvWait 0 false;
            EvOp plainErr; EvRetryIf 1 plainErr true; EvOnRetry 1 plainErr;
            EvDelay 1 plainErr; EvWait 0 false;
            EvOp plainErr; EvRetryIf 2 plainErr false] in
  Do (alwaysFail plainErr) opts emptyWorld
  = Some (Ok (Aggregate (repeat plainErr 3 ++ repeat ErrNil 7)), mkWorld tt t) /\
  In (EvRetryIf 2 plainErr false) t /\
  Z.of_nat (invocations t) = 2 + 1.
Proof.
  assert (Hin : In (EvRetryIf 2 plainErr false)
            [EvOp plainErr; EvRetryIf 0 plainErr true; EvOnRetry 0 plainErr;
             EvDelay 0 plainErr; EvWait 0 false;
             EvOp plainErr; EvRetryIf 1 plainErr true; EvOnRetry 1 plainErr;
             EvDelay 1 plainErr; EvWait 0 false;
             EvOp plainErr; EvRetryIf 2 plainErr false]).
  { cbn [In]. do 11 right. left. reflexivity. }
  split; [reflexivity|]. split; [exact Hin|].
  exact (proj1 (proj2 (Do_predicate_stop (alwaysFail plainErr)
                  [WithRetryIfFn (retryBelow 2)] emptyWorld)
                _ _ _ 2 plainErr eq_refl eq_refl Hin)).
Defined.

Lemma WithDelayFn_ceiling_witness :
  let df := CombineDelayFn [FixDelayFn; BackOffDelayFn (Env := unit) Z.log2] in
  let dopts := [SetBackOffBeginTimeFn 100; SetMaxDelayTimeFn 500] in
  let c := dconf (configure [WithDelayFn df dopts]) in
  keeps_ceiling df /\
  maxDelayTime c = 500 /\
  (exists c', df 3 plainErr c tt = (Ok (900, c'), tt)) /\
  exists t c',
    delayFn (configure [WithDelayFn df dopts]) 3 plainErr c tt = (Ok (t, c'), tt) /\
    t = 500.
Proof.
  assert (Hkeep : keeps_ceiling
            (CombineDelayFn [FixDelayFn; BackOffDelayFn (Env := unit) Z.log2])).
  { apply CombineDelayFn_keeps_ceiling.
    repeat constructor;
      [apply FixDelayFn_keeps_ceiling | apply BackOffDelayFn_keeps_ceiling]. }
  split; [exact Hkeep|]. split; [reflexivity|].
  split; [eexists; reflexivity|].
  destruct (proj1 (WithDelayFn_ceiling (alwaysFail plainErr)
              (CombineDelayFn [FixDelayFn; BackOffDelayFn (Env := unit) Z.log2])
              [SetBackOffBeginTimeFn 100; SetMaxDelayTimeFn 500]
              newDefaultConfig 3 plainErr
              (dconf (configure
                        [WithDelayFn
                           (CombineDelayFn [FixDelayFn; BackOffDelayFn (Env := unit) Z.log2])
                           [SetBackOffBeginTimeFn 100; SetMaxDelayTimeFn 500]]))
              tt [] emptyWorld Hkeep))
    as [t [Hrun [_ [Hcut _]]]].
  exists t. eexists. split; [exact Hrun|]. apply Hcut. reflexivity.
Defined.

(** ** Operations that always fail *)

Lemma update_after_prefix (e v x : error) (j : nat) (rest : list error) :
  update (repeat e j ++ x :: rest) j v = repeat e j ++ v :: rest.
Proof. induction j as [|j IH]; cbn; [reflexivity|]. now rewrite IH. Qed.

Lemma repeat_snoc (e : error) (j : nat) (rest : list error) :
  repeat e j ++ e :: rest = repeat e (S j) ++ rest.
Proof.
  change (e :: rest) with ([e] ++ rest). rewrite app_assoc.
  now rewrite <- repeat_cons.
Qed.

Section AlwaysFailing.

Context {Env : Type}.
Variables (f : Operation Env) (e : error) (c : config Env).
Hypothesis He_nonnil : is_nil e = false.
Hypothesis He_plain : IsReconverableError e = false.
Hypothesis Hf : forall s, fst (f s) = e.
Hypothesis Hpred : retryIfFn c = defaultRetryIfFn.
Hypothesis Hdelay : delayFn c = defaultDelayFn.
Hypothesis Hctx : ctx c = Background.
Hypothesis Hall : lastErrorOnly c = false.

Lemma attempt_always_failing (d : delayConfig) (j m : nat) (li : Z) (w : World Env) :
  exists w' t,
    trace w' = trace w ++ t /\ invocations t = 1%nat /\
    attempt f c d (repeat e j ++ repeat ErrNil (S m)) (Z.of_nat j) li w
    = (if Z.of_nat j =? uint (attempts c - 1)
       then Ok (Return (Aggregate (repeat e (S j) ++ repeat ErrNil m)))
       else Ok (Next d (repeat e (S j) ++ repeat ErrNil m) (Z.of_nat j)), w').
Proof.
  unfold_turn.
  destruct (f (user w)) as [e' s1] eqn:E.
  pose proof (Hf (user w)) as He. rewrite E in He. cbn in He. subst e'.
  rewrite He_nonnil, Hall. cbn [negb].
  rewrite (UnwrapUnrecoverableError_plain e He_plain).
  unfold set_index.
  assert (Hin : (0 <=? Z.of_nat j) && (Z.of_nat j <? Z.of_nat (List.length (repeat e j ++ repeat ErrNil (S m)))) = true).
  { rewrite length_app, !repeat_length. apply andb_true_intro.
    split; [apply Z.leb_le | apply Z.ltb_lt]; lia. }
  rewrite Hin, Nat2Z.id. cbn [repeat]. rewrite update_after_prefix, repeat_snoc.
  rewrite Hpred. unfold defaultRetryIfFn. rewrite He_plain. cbn [negb].
  destruct (Z.of_nat j =? uint (attempts c - 1)).
  - do 2 eexists. split; [|split; [|reflexivity]]; cbn [trace].
    + rewrite <- !app_assoc. reflexivity.
    + reflexivity.
  - rewrite Hdelay, Hctx. cbn.
    do 2 eexists. split; [|split; [|reflexivity]]; cbn [trace].
    + rewrite <- !app_assoc. reflexivity.
    + reflexivity.
Qed.

Lemma loop_always_failing (m : nat) :
  forall (j : nat) (d : delayConfig) (li : Z) (w : World Env) (fuel : nat),
    attempts c = Z.of_nat (j + S m) ->
    attempts c < 2 ^ 64 ->
    (S m <= fuel)%nat ->
    exists w' t,
      attempt_loop fuel f c d (repeat e j ++ repeat ErrNil (S m)) (Z.of_nat j) li w
      = Some (Ok (Aggregate (repeat e (j + S m))), w') /\
      trace w' = trace w ++ t /\ invocations t = S m.
Proof.
  assert (Hlast : attempts c < 2 ^ 64 -> 0 < attempts c ->
                  uint (attempts c - 1) = attempts c - 1)
    by (intros; unfold uint; apply Z.mod_small; lia).
  induction m as [|m IH]; intros j d li w fuel HA Hsmall Hfuel;
    (destruct fuel as [|fuel]; [lia|]); cbn [attempt_loop];
    (destruct (Z.ltb_spec (Z.of_nat j) (attempts c)); [|lia]); cbn [negb];
    [destruct (attempt_always_failing d j 0 li w) as [w1 [t1 [Ht1 [Hn1 Hrun]]]]
    |destruct (attempt_always_failing d j (S m) li w) as [w1 [t1 [Ht1 [Hn1 Hrun]]]]];
    rewrite Hrun, Hlast by lia.
  - destruct (Z.eqb_spec (Z.of_nat j) (attempts c - 1)); [|lia].
    exists w1, t1. cbn [repeat]. rewrite app_nil_r.
    replace (j + 1)%nat with (S j) by lia. auto.
  - destruct (Z.eqb_spec (Z.of_nat j) (attempts c - 1)); [lia|].
    assert (Hwrap : uint (Z.of_nat j + 1) = Z.of_nat (S j))
      by (unfold uint; rewrite Z.mod_small; lia).
    rewrite Hwrap.
    destruct (IH (S j) d (Z.of_nat j) w1 fuel) as [w2 [t2 [Hloop [Ht2 Hn2]]]];
      [lia | lia | lia |].
    exists w2, (t1 ++ t2). rewrite Hloop.
    replace (S j + S m)%nat with (j + S (S m))%nat by lia.
    split; [reflexivity|]. split.
    + rewrite Ht2, Ht1, app_assoc. reflexivity.
    + unfold invocations in *. rewrite filter_app, length_app. lia.
Qed.

End AlwaysFailing.

(** C1: under the default configuration an operation that always fails
    with the same unmarked error is invoked exactly 10 times, and [Do]
    returns the aggregate of length 10 whose slots all hold that error. *)
Theorem Do_default_attempts {Env : Type} (f : Operation Env) (e : error)
        (w : World Env) :
  is_nil e = false ->
  IsReconverableError e = false ->
  (forall s, fst (f s) = e) ->
  exists w' t,
    Do f [] w = Some (Ok (Aggregate (repeat e 10)), w') /\
    List.length (repeat e 10) = 10%nat /\
    (forall i, (i < 10)%nat -> nth i (repeat e 10) ErrNil = e) /\
    trace w' = trace w ++ t /\
    invocations t = 10%nat.
Proof.
  intros Hnonnil Hplain Hf.
  destruct (loop_always_failing f e newDefaultConfig Hnonnil Hplain Hf
              eq_refl eq_refl eq_refl eq_refl 9 0 (dconf (@newDefaultConfig Env)) 0 w 11)
    as [w' [t [Hloop [Ht Hn]]]]; [reflexivity | reflexivity | lia |].
  exists w', t. split; [exact Hloop|]. split; [reflexivity|].
  split; [|split; assumption].
  intros i Hi. do 10 (destruct i as [|i]; [reflexivity|]). lia.
Qed.

(** The same for any budget set with [WithAttempts] for which the slice
    can be made: as many invocations as the budget, and an aggregate of
    that length. *)
Lemma Do_budget_attempts {Env : Type} (f : Operation Env) (e : error)
      (budget : Z) (w : World Env) :
  is_nil e = false ->
  IsReconverableError e = false ->
  (forall s, fst (f s) = e) ->
  0 < budget <= maxErrorLen ->
  exists w' t,
    Do f [WithAttempts budget] w
    = Some (Ok (Aggregate (repeat e (Z.to_nat budget))), w') /\
    trace w' = trace w ++ t /\
    invocations t = Z.to_nat budget.
Proof.
  intros Hnonnil Hplain Hf Hbudget. unfold Do.
  change (attempts (configure [WithAttempts (Env := Env) budget])) with budget.
  cbn [configure applyOptions fold_left WithAttempts newDefaultConfig ctx Err
       Background lastErrorOnly is_nil negb].
  destruct (Z.eqb_spec budget 0); [lia|].
  rewrite make_Error_fits by lia.
  pose proof maxErrorLen_value as Hmax.
  destruct (Z.to_nat budget) as [|m] eqn:Hm; [lia|].
  apply (loop_always_failing f e (configure [WithAttempts budget])
           Hnonnil Hplain Hf eq_refl eq_refl eq_refl eq_refl m 0);
    cbn [configure applyOptions fold_left WithAttempts attempts]; lia.
Qed.

Lemma Do_default_attempts_witness :
  is_nil plainErr = false /\
  IsReconverableError plainErr = false /\
  exists w' t,
    Do (alwaysFail plainErr) [] emptyWorld
    = Some (Ok (Aggregate (repeat plainErr 10)), w') /\
    trace w' = t /\ invocations t = 10%nat.
Proof.
  split; [reflexivity|]. split; [reflexivity|].
  destruct (Do_default_attempts (alwaysFail plainErr) plainErr emptyWorld
              eq_refl eq_refl (fun _ => eq_refl))
    as [w' [t [HDo [_ [_ [Ht Hn]]]]]].
  exists w', t. auto.
Defined.

(** ** Unrecoverable errors *)

(** C2, as the spec states it, fails: under the default configuration the
    operation that returns a marked error is invoked once, but [Do] returns
    the aggregate pre-sized to the budget, not the cause of the marked
    error. *)
Lemma Do_unrecoverable_default_aggregate :
  let f := alwaysFail (Unrecoverable plainErr) in
  let t := [EvOp (Unrecoverable plainErr);
            EvRetryIf 0 (Unrecoverable plainErr) false] in
  UnwrapUnrecoverableError (Unrecoverable plainErr) = Ok plainErr /\
  Do f [] emptyWorld
  = Some (Ok (Aggregate (plainErr :: repeat ErrNil 9)), mkWorld tt t) /\
  invocations t = 1%nat /\
  Do f [] emptyWorld <> Some (Ok plainErr, mkWorld tt t).
Proof. cbv. repeat split; discriminate. Qed.

(** C2 (amended): when the context is not done on entry, the budget is at
    least one and, in collect-all mode, no more than the greatest length
    [make] accepts for the slice of errors, and the default predicate is in
    place, an operation whose first invocation returns
    [UnrecoverableError(cause)] is invoked exactly once, and nothing else is
    called but the predicate; in last-error-only mode [Do] returns [cause],
    and in collect-all mode it returns an aggregate whose first slot is
    [cause]. *)
Theorem Do_unrecoverable_first {Env : Type} (f : Operation Env)
        (opts : list (Option Env)) (w : World Env) (cause : error) :
  is_nil (Err (ctx (configure opts)) (user w)) = true ->
  0 < attempts (configure opts) ->
  (lastErrorOnly (configure opts) = false ->
   attempts (configure opts) <= maxErrorLen) ->
  retryIfFn (configure opts) = defaultRetryIfFn ->
  fst (f (user w)) = Unrecoverable cause ->
  exists r w',
    Do f opts w = Some (Ok r, w') /\
    trace w' = trace w ++ [EvOp (Unrecoverable cause);
                           EvRetryIf 0 (Unrecoverable cause) false] /\
    (lastErrorOnly (configure opts) = true -> r = cause) /\
    (lastErrorOnly (configure opts) = false ->
     exists rest, r = Aggregate (cause :: rest)).
Proof.
  intros Hlive Hpos Hfits Hpred Hf. unfold Do. rewrite Hlive. cbn [negb].
  destruct (Z.eqb_spec (attempts (configure opts)) 0); [lia|].
  destruct (lastErrorOnly (configure opts)) eqn:Hmode;
    [rewrite make_Error_one | rewrite make_Error_fits by auto];
    cbn [attempt_loop];
    (destruct (Z.ltb_spec 0 (attempts (configure opts))); [|lia]); cbn [negb];
    unfold attempt, bind, call_op, call_retryIf, final, lift, ret, log;
    cbn [user trace];
    destruct (f (user w)) as [err s1] eqn:E; cbn in Hf; subst err;
    cbn [is_nil]; rewrite UnwrapUnrecoverableError_marker;
    rewrite Hpred; unfold defaultRetryIfFn; rewrite IsReconverableError_marker;
    rewrite Hmode; cbn [negb user trace].
  - cbn. do 2 eexists. split; [reflexivity|]. cbn [trace].
    rewrite <- app_assoc. split; [reflexivity|].
    split; [intros _; reflexivity | discriminate].
  - destruct (Z.to_nat (attempts (configure opts))) as [|m] eqn:Hm; [lia|].
    unfold set_index. cbn [repeat List.length Z.leb andb].
    replace (0 <? Z.of_nat (S (List.length (repeat ErrNil m)))) with true
      by (symmetry; apply Z.ltb_lt; lia).
    cbn. do 2 eexists. split; [reflexivity|]. cbn [trace].
    rewrite <- app_assoc. split; [reflexivity|].
    split; [discriminate | intros _; eexists; reflexivity].
Qed.

Lemma Do_unrecoverable_first_witness :
  let f := alwaysFail (Unrecoverable plainErr) in
  let last_only := [WithLastErrorOnly (Env := unit) true] in
  let collect_all := @nil (Option unit) in
  (is_nil (Err (ctx (configure last_only)) (user emptyWorld)) = true /\
   0 < attempts (configure last_only) /\
   retryIfFn (configure last_only) = defaultRetryIfFn /\
   fst (f (user emptyWorld)) = Unrecoverable plainErr /\
   exists w', Do f last_only emptyWorld = Some (Ok plainErr, w')) /\
  (lastErrorOnly (configure collect_all) = false /\
   0 < attempts (configure collect_all) <= maxErrorLen /\
   exists rest w',
     Do f collect_all emptyWorld = Some (Ok (Aggregate (plainErr :: rest)), w')).
Proof.
  split.
  - repeat (split; [reflexivity|]).
    destruct (Do_unrecoverable_first (alwaysFail (Unrecoverable plainErr))
                [WithLastErrorOnly true] emptyWorld plainErr
                eq_refl eq_refl (fun H => False_ind _ (Bool.diff_true_false H))
                eq_refl eq_refl)
      as [r [w' [HDo [_ [Hlast _]]]]].
    exists w'. rewrite HDo, (Hlast eq_refl). reflexivity.
  - split; [reflexivity|]. split; [split; [reflexivity | discriminate]|].
    destruct (Do_unrecoverable_first (alwaysFail (Unrecoverable plainErr))
                [] emptyWorld plainErr
                eq_refl eq_refl (fun _ => ltac:(discriminate)) eq_refl eq_refl)
      as [r [w' [HDo [_ [_ Hall]]]]].
    destruct (Hall eq_refl) as [rest Hr]. exists rest, w'.
    rewrite HDo, Hr. reflexivity.
Defined.

(** C10 fails on the code: under the default configuration an operation
    that returns a marked error stops the loop after one attempt, and [Do]
    returns the aggregate pre-sized to the budget of 10 with nil in the nine
    slots that were never written; [Error()] on that aggregate panics. *)
Theorem Do_early_stop_leaves_nil_slots :
  let f := alwaysFail (Unrecoverable plainErr) in
  let errs := plainErr :: repeat ErrNil 9 in
  (exists w', Do f [] emptyWorld = Some (Ok (Aggregate errs), w') /\
              invocations (trace w') = 1%nat) /\
  nth 1 errs plainErr = ErrNil /\
  error_Error (Aggregate errs)
  = Panic "invalid memory address or nil pointer dereference" /\
  Error_As_unrecoverable errs = false.
Proof.
  cbv zeta. split; [eexists; split; reflexivity|].
  repeat split.
Qed.

(** * Further properties of the package *)

(** ** Slices *)

Lemma update_length (errs : list error) (i : nat) (v : error) :
  List.length (update errs i v) = List.length errs.
Proof.
  revert i. induction errs as [|x errs IH]; intros [|i]; cbn; auto.
Qed.

Lemma update_nth_same (errs : list error) (i : nat) (v : error) :
  (i < List.length errs)%nat -> nth i (update errs i v) ErrNil = v.
Proof.
  revert i. induction errs as [|x errs IH]; intros [|i] Hi; cbn in *; try lia.
  - reflexivity.
  - apply IH. lia.
Qed.

Lemma update_nth_other (errs : list error) (i k : nat) (v : error) :
  k <> i -> nth k (update errs i v) ErrNil = nth k errs ErrNil.
Proof.
  revert i k. induction errs as [|x errs IH]; intros [|i] [|k] Hk; cbn;
    try reflexivity; try lia.
  apply IH. lia.
Qed.

Lemma set_index_inv (errs errs' : list error) (i : Z) (v : error) :
  set_index errs i v = Ok errs' ->
  (Z.to_nat i < List.length errs)%nat /\ 0 <= i /\
  errs' = update errs (Z.to_nat i) v.
Proof.
  unfold set_index.
  destruct (Z.leb_spec 0 i) as [Hlo|Hlo];
    destruct (Z.ltb_spec i (Z.of_nat (List.length errs))) as [Hhi|Hhi];
    cbn [andb]; intros Hset; inversion Hset. repeat split; lia.
Qed.

Lemma at_index_set_index (errs errs' : list error) (i : Z) (v : error) :
  set_index errs i v = Ok errs' -> at_index errs' i = Ok v.
Proof.
  intros H. apply set_index_inv in H. destruct H as [Hi [Hpos ->]].
  unfold at_index. rewrite update_length.
  destruct (Z.leb_spec 0 i) as [Hlo|Hlo]; [|lia].
  destruct (Z.ltb_spec i (Z.of_nat (List.length errs))) as [Hhi|Hhi]; [|lia].
  cbn [andb]. now rewrite update_nth_same.
Qed.

(** ** Inspecting chains of errors *)

(** X14: [errors.Is] against an error made by [errors.New] answers [true]
    exactly when that error is found from [err] by unwrapping wrappers and
    looking into the slots of aggregates; what a marker wraps is never
    looked at. *)
Theorem errors_Is_errorString_in_chain (err : error) (id : nat) (s : string) :
  errors_Is_errorString err id s = true <-> in_chain (errorString id s) err.
Proof.
  split.
  - induction err as [|id' s'|msg inner IH|inner IH|errs IH] using error_nested_ind;
      cbn [errors_Is_errorString]; intros H; try discriminate.
    + apply andb_prop in H. destruct H as [Hid Hs].
      apply Nat.eqb_eq in Hid. apply String.eqb_eq in Hs. subst. constructor.
    + constructor. auto.
    + apply existsb_exists in H. destruct H as [v [Hin Hv]].
      rewrite Forall_forall in IH. econstructor; eauto.
  - intros H. remember (errorString id s) as target eqn:Ht.
    induction H as [|msg inner _ IH|errs v Hin _ IH]; subst.
    + cbn. now rewrite Nat.eqb_refl, String.eqb_refl.
    + cbn. auto.
    + cbn. apply existsb_exists. eauto.
Qed.

(** X15: [IsReconverableError] answers [true] exactly when [err] carries a
    marker: it is one, or one is found by unwrapping wrappers and looking
    into the slots of aggregates. *)
Theorem IsReconverableError_carries_marker (err : error) :
  IsReconverableError err = true <-> carries_marker err.
Proof.
  unfold IsReconverableError. split.
  - induction err as [| |msg inner IH|inner IH|errs IH] using error_nested_ind;
      cbn [errors_As_unrecoverable]; intros H; try discriminate.
    + constructor. auto.
    + constructor.
    + apply existsb_exists in H. destruct H as [v [Hin Hv]].
      rewrite Forall_forall in IH. econstructor; eauto.
  - induction 1 as [inner|msg inner _ IH|errs v Hin _ IH]; cbn; auto.
    apply existsb_exists. eauto.
Qed.

(** ** The message of an aggregate *)

Lemma error_Error_aggregate (errs : list error) :
  error_Error (Aggregate errs)
  = rbind (Error_lines 0 errs) (fun res =>
      Ok ("Retry Error: " ++ newline ++ String.concat newline res)%string).
Proof.
  reflexivity.
Qed.

Lemma Error_lines_ok (errs : list error) : forall i,
  (exists res, Error_lines i errs = Ok res) <->
  Forall (fun v => exists m, error_Error v = Ok m) errs.
Proof.
  induction errs as [|v errs IH]; intros i; cbn [Error_lines].
  - split; [constructor | eauto].
  - split.
    + intros [res H]. destruct (error_Error v) as [m|p] eqn:Ev; [|discriminate].
      cbn [rbind] in H.
      destruct (Error_lines (S i) errs) as [res'|p] eqn:El; [|discriminate].
      constructor; [eauto|]. apply (IH (S i)). eauto.
    + intros H. inversion H as [|v' errs' [m Hm] Hrest]; subst.
      apply (IH (S i)) in Hrest. destruct Hrest as [res Hres].
      rewrite Hm, Hres. cbn. eauto.
Qed.

(** X16: [Error()] on an aggregate returns a message exactly when [Error()]
    returns one on every slot; otherwise it panics. In particular it panics
    as soon as one slot is nil. *)
Theorem Error_Error_defined (errs : list error) :
  ((exists msg, error_Error (Aggregate errs) = Ok msg) <->
   Forall (fun v => exists m, error_Error v = Ok m) errs) /\
  (In ErrNil errs -> exists p, error_Error (Aggregate errs) = Panic p).
Proof.
  assert (Hiff : (exists msg, error_Error (Aggregate errs) = Ok msg) <->
                 Forall (fun v => exists m, error_Error v = Ok m) errs).
  { rewrite error_Error_aggregate, <- (Error_lines_ok errs 0). split.
    - intros [msg H]. destruct (Error_lines 0 errs); [eauto|discriminate].
    - intros [res H]. rewrite H. cbn. eauto. }
  split; [exact Hiff|].
  intros Hin. destruct (error_Error (Aggregate errs)) as [msg|p] eqn:E; [|eauto].
  exfalso. assert (Hall : Forall (fun v => exists m, error_Error v = Ok m) errs)
    by (apply Hiff; eauto).
  rewrite Forall_forall in Hall. destruct (Hall _ Hin) as [m Hm]. discriminate.
Qed.

(** ** Runs of the executor *)

Ltac turn_cases Hrun Ht :=
  unfold_turn; repeat step_match;
  intros Hrun Ht; inversion Hrun; subst; clear Hrun;
  cbn [user trace] in *; rewrite <- ?app_assoc in Ht; cbn [app] in Ht;
  apply app_inv_head in Ht; subst.

Section Runs.

Context {Env : Type}.
Variable f : Operation Env.

Lemma final_world (c : config Env) errs li (w : World Env) r w' :
  final c errs li w = (r, w') -> w' = w.
Proof.
  unfold final, lift, ret. destruct (lastErrorOnly c); intros H; now inversion H.
Qed.

(** One step of the loop, taken apart. *)
Lemma loop_step fuel (c : config Env) d errs n li w r w' :
  attempt_loop (S fuel) f c d errs n li w = Some (r, w') ->
  ((n <? attempts c) = false /\ final c errs li w = (r, w')) \/
  ((n <? attempts c) = true /\
   exists ro w1,
     attempt f c d errs n li w = (ro, w1) /\
     match ro with
     | Ok (Return e) => r = Ok e /\ w' = w1
     | Ok (Next d1 errs1 li1) =>
         attempt_loop fuel f c d1 errs1 (uint (n + 1)) li1 w1 = Some (r, w')
     | Panic p => r = Panic p /\ w' = w1
     end).
Proof.
  cbn [attempt_loop]. destruct (n <? attempts c); cbn [negb].
  - intros H. right. split; [reflexivity|].
    destruct (attempt f c d errs n li w) as [ro w1]. exists ro, w1.
    split; [reflexivity|].
    destruct ro as [[e|d1 errs1 li1]|p]; [inversion H|exact H|inversion H]; auto.
  - intros H. left. split; [reflexivity|]. now inversion H.
Qed.

Lemma loop_extends (fuel : nat) : forall (c : config Env) d errs n li w r w',
  attempt_loop fuel f c d errs n li w = Some (r, w') ->
  exists t, trace w' = trace w ++ t.
Proof.
  induction fuel as [|fuel IH]; intros c d errs n li w r w' H; [discriminate|].
  apply loop_step in H. destruct H as [[_ H]|[_ [ro [w1 [E H]]]]].
  - apply final_world in H. subst. exists []. now rewrite app_nil_r.
  - destruct (attempt_trace _ _ _ _ _ _ _ _ _ E) as [t1 [Ht1 _]].
    destruct ro as [[e|d1 errs1 li1]|p].
    + destruct H; subst; eauto.
    + apply IH in H. destruct H as [t2 Ht2]. exists (t1 ++ t2).
      now rewrite Ht2, Ht1, app_assoc.
    + destruct H; subst; eauto.
Qed.

(** The trace of a run that goes on after a turn is the trace of the turn
    followed by the trace of the rest. *)
Lemma trace_split (w w1 w' : World Env) t t1 t2 :
  trace w1 = trace w ++ t1 -> trace w' = trace w1 ++ t2 ->
  trace w' = trace w ++ t -> t = t1 ++ t2.
Proof.
  intros H1 H2 H. rewrite H2, H1, <- app_assoc in H. now apply app_inv_head in H.
Qed.

Lemma trace_same (w : World Env) t t' :
  trace w ++ t = trace w ++ t' -> t = t'.
Proof. apply app_inv_head. Qed.

Lemma Do_extends (opts : list (Option Env)) (w : World Env) r w' :
  Do f opts w = Some (r, w') -> exists t, trace w' = trace w ++ t.
Proof.
  intros H. apply Do_inv in H. destruct H as [[-> _]|[_ [_ [errs [_ H]]]]].
  { exists []. now rewrite app_nil_r. }
  eapply loop_extends; eauto.
Qed.

(** *** A success ends the run *)

Lemma attempt_success c d errs n li w r w' t :
  attempt f c d errs n li w = (r, w') ->
  trace w' = trace w ++ t ->
  In (EvOp ErrNil) t -> r = Ok (Return ErrNil) /\ t = [EvOp ErrNil].
Proof.
  turn_cases Hrun Ht.
  all: intros Hin; in_cases Hin; inversion Hin; subst;
    try discriminate; auto.
Qed.

Lemma loop_success (fuel : nat) : forall (c : config Env) d errs n li w r w' t,
  attempt_loop fuel f c d errs n li w = Some (r, w') ->
  trace w' = trace w ++ t ->
  In (EvOp ErrNil) t ->
  r = Ok ErrNil /\ exists t0, t = t0 ++ [EvOp ErrNil] /\ ~ In (EvOp ErrNil) t0.
Proof.
  induction fuel as [|fuel IH]; intros c d errs n li w r w' t H Ht Hin;
    [discriminate|].
  apply loop_step in H. destruct H as [[_ H]|[_ [ro [w1 [E H]]]]].
  - apply final_world in H. subst. apply no_events in Ht. subst. destruct Hin.
  - destruct (attempt_trace _ _ _ _ _ _ _ _ _ E) as [t1 [Ht1 _]].
    pose proof (attempt_success _ _ _ _ _ _ _ _ _ E Ht1) as Hturn.
    destruct ro as [[e|d1 errs1 li1]|p].
    + destruct H; subst. rewrite Ht1 in Ht. apply trace_same in Ht. subst t1.
      destruct (Hturn Hin) as [Hr ->]. inversion Hr. split; [reflexivity|].
      exists []. auto.
    + destruct (loop_extends _ _ _ _ _ _ _ _ _ H) as [t2 Ht2].
      pose proof (trace_split _ _ _ _ _ _ Ht1 Ht2 Ht). subst t.
      assert (Hnot1 : ~ In (EvOp ErrNil) t1).
      { intros Hin1. destruct (Hturn Hin1). discriminate. }
      apply in_app_or in Hin. destruct Hin as [Hin|Hin]; [contradiction|].
      destruct (IH _ _ _ _ _ _ _ _ _ H Ht2 Hin) as [Hr [t0 [-> Hnot]]].
      split; [exact Hr|]. exists (t1 ++ t0). rewrite app_assoc. split; [reflexivity|].
      intros Hin'. apply in_app_or in Hin'. tauto.
    + destruct H; subst. rewrite Ht1 in Ht. apply trace_same in Ht. subst t1.
      destruct (Hturn Hin). discriminate.
Qed.

(** X1: as soon as one invocation of the operation returns nil, [Do]
    returns nil: that invocation is the last call of the run, and the
    errors collected before are dropped. *)
Theorem Do_success_ends_run (opts : list (Option Env)) (w : World Env) r w' t :
  Do f opts w = Some (r, w') ->
  trace w' = trace w ++ t ->
  In (EvOp ErrNil) t ->
  r = Ok ErrNil /\ exists t0, t = t0 ++ [EvOp ErrNil] /\ ~ In (EvOp ErrNil) t0.
Proof.
  intros H Ht Hin. apply Do_inv in H.
  destruct H as [[-> _]|[_ [_ [errs [_ H]]]]].
  { apply no_events in Ht. subst. destruct Hin. }
  eapply loop_success; eauto.
Qed.


(** *** Counting the calls of a run *)

Lemma turn_counts (c : config Env) n t b :
  turn_events c n t b ->
  invocations t = 1%nat /\ callbacks t = accepted t /\
  completed_waits t = (if b then 1 else 0)%nat.
Proof.
  intros [err H].
  destruct H as [[-> ->]|[[-> ->]|[[-> ->]|[[-> ->]|[d [done [-> [-> _]]]]]]]];
    try (repeat split; reflexivity).
  destruct done; repeat split; reflexivity.
Qed.

Lemma counts_app (t1 t2 : list event) :
  invocations (t1 ++ t2) = (invocations t1 + invocations t2)%nat /\
  callbacks (t1 ++ t2) = (callbacks t1 + callbacks t2)%nat /\
  accepted (t1 ++ t2) = (accepted t1 + accepted t2)%nat /\
  completed_waits (t1 ++ t2) = (completed_waits t1 + completed_waits t2)%nat.
Proof.
  unfold invocations, callbacks, accepted, completed_waits.
  now rewrite !filter_app, !length_app.
Qed.

(** After a turn that is not the last of the budget, the budget leaves room
    for one more attempt. *)
Lemma room_for_next (c : config Env) (n : Z) :
  0 <= n <= uint (attempts c - 1) ->
  n < attempts c ->
  n <> uint (attempts c - 1) ->
  n + 1 < attempts c.
Proof.
  intros Hn Hlt Hlast. unfold uint in *.
  pose proof (Z.mod_le (attempts c - 1) (2 ^ 64) ltac:(lia) ltac:(lia)). lia.
Qed.

Lemma loop_counts (fuel : nat) : forall (c : config Env) d errs n li w r w' t,
  0 <= n <= uint (attempts c - 1) ->
  attempt_loop fuel f c d errs n li w = Some (r, w') ->
  trace w' = trace w ++ t ->
  callbacks t = accepted t /\
  Z.of_nat (invocations t) <= Z.max 0 (attempts c - n) /\
  (n < attempts c -> (completed_waits t + 1 = invocations t)%nat) /\
  (attempts c <= n -> t = []).
Proof.
  induction fuel as [|fuel IH]; intros c d errs n li w r w' t Hn H Ht;
    [discriminate|].
  apply loop_step in H. destruct H as [[Hlt H]|[Hlt [ro [w1 [E H]]]]].
  - apply final_world in H. subst. apply no_events in Ht. subst.
    apply Z.ltb_ge in Hlt. cbn. repeat split; lia.
  - apply Z.ltb_lt in Hlt.
    destruct (attempt_trace _ _ _ _ _ _ _ _ _ E) as [t1 [Ht1 Hturn]].
    destruct (turn_counts _ _ _ _ Hturn) as [Hinv [Hcb Hw]].
    destruct ro as [[e|d1 errs1 li1]|p]; cbn [goes_on] in *.
    + destruct H; subst. rewrite Ht1 in Ht. apply trace_same in Ht. subst t1.
      repeat split; lia.
    + destruct (turn_continues _ _ _ Hturn) as [Hlast _].
      destruct (next_attempt_in_range c n Hn Hlast) as [Hwrap Hn'].
      pose proof (room_for_next c n Hn Hlt Hlast) as Hroom.
      rewrite Hwrap in H.
      destruct (loop_extends _ _ _ _ _ _ _ _ _ H) as [t2 Ht2].
      pose proof (trace_split _ _ _ _ _ _ Ht1 Ht2 Ht). subst t.
      destruct (IH _ _ _ _ _ _ _ _ _ Hn' H Ht2) as [Hcb2 [Hinv2 [Hw2 _]]].
      specialize (Hw2 Hroom).
      destruct (counts_app t1 t2) as [-> [-> [-> ->]]].
      repeat split; lia.
    + destruct H; subst. rewrite Ht1 in Ht. apply trace_same in Ht. subst t1.
      repeat split; lia.
Qed.

Lemma Do_counts (opts : list (Option Env)) (w : World Env) r w' t :
  Do f opts w = Some (r, w') ->
  trace w' = trace w ++ t ->
  callbacks t = accepted t /\
  Z.of_nat (invocations t) <= Z.max 0 (attempts (configure opts)) /\
  (t = [] \/ (completed_waits t + 1 = invocations t)%nat).
Proof.
  intros H Ht. apply Do_inv in H.
  destruct H as [[-> _]|[_ [_ [errs [_ H]]]]].
  { apply no_events in Ht. subst. cbn. repeat split; (lia || auto). }
  destruct (loop_counts _ _ _ _ _ _ _ _ _ _ (first_attempt_in_range _) H Ht)
    as [Hcb [Hinv [Hw Hnone]]].
  split; [exact Hcb|]. split; [now rewrite Z.sub_0_r in Hinv|].
  destruct (Z.ltb_spec 0 (attempts (configure opts))); [right | left]; auto.
Qed.

(** X2: a run of [Do] never invokes the operation more often than the
    attempt budget says. *)
Theorem Do_within_budget (opts : list (Option Env)) (w : World Env) r w' t :
  Do f opts w = Some (r, w') ->
  trace w' = trace w ++ t ->
  Z.of_nat (invocations t) <= Z.max 0 (attempts (configure opts)).
Proof. intros H Ht. apply (Do_counts _ _ _ _ _ H Ht). Qed.

(** X3: in every run of [Do] the on-retry callback is called once for each
    failure the predicate accepts, the last attempt of the budget included,
    and exactly one wait runs to its end between two invocations of the
    operation. *)
Theorem Do_callbacks_and_waits (opts : list (Option Env)) (w : World Env) r w' t :
  Do f opts w = Some (r, w') ->
  trace w' = trace w ++ t ->
  callbacks t = accepted t /\
  (t = [] \/ (completed_waits t + 1 = invocations t)%nat).
Proof.
  intros H Ht. destruct (Do_counts _ _ _ _ _ H Ht) as [Hcb [_ Hw]]. auto.
Qed.

(** *** The slice of errors in collect-all mode *)

Lemma attempt_slots c d errs n li w ro w' :
  lastErrorOnly c = false ->
  attempt f c d errs n li w = (Ok ro, w') ->
  match ro with
  | Return r => r = ErrNil \/ exists errs', r = Aggregate errs' /\ slots_kept errs errs' n
  | Next _ errs' _ => slots_kept errs errs' n
  end.
Proof.
  intros Hall. unfold_turn. rewrite Hall. cbn [negb]. repeat step_match.
  all: intros Hrun; inversion Hrun; subst; clear Hrun; auto.
  all: repeat match goal with
       | H : set_index _ _ _ = Ok _ |- _ =>
           apply set_index_inv in H; destruct H as [? [? ?]]; subst
       end.
  all: try match goal with
           | |- _ \/ _ => right; eexists; split; [reflexivity|]
           end.
  all: unfold slots_kept; rewrite ?update_length; split; [reflexivity|];
    intros k Hk; now rewrite ?update_nth_other by exact Hk.
Qed.

Lemma loop_slots (fuel : nat) : forall (c : config Env) d errs n li w r w' t,
  lastErrorOnly c = false ->
  0 <= n <= uint (attempts c - 1) ->
  (forall k, (Z.to_nat n <= k)%nat -> nth k errs ErrNil = ErrNil) ->
  attempt_loop fuel f c d errs n li w = Some (Ok r, w') ->
  trace w' = trace w ++ t ->
  r = ErrNil \/
  exists errs', r = Aggregate errs' /\
    List.length errs' = List.length errs /\
    forall k, (Z.to_nat n + invocations t <= k)%nat -> nth k errs' ErrNil = ErrNil.
Proof.
  induction fuel as [|fuel IH]; intros c d errs n li w r w' t Hall Hn Hnil H Ht;
    [discriminate|].
  apply loop_step in H. destruct H as [[_ H]|[_ [ro [w1 [E H]]]]].
  - pose proof (final_world _ _ _ _ _ _ H). subst. apply no_events in Ht. subst.
    unfold final, ret in H. rewrite Hall in H. inversion H. right.
    exists errs. repeat split. intros k Hk. apply Hnil. cbn in Hk. lia.
  - destruct (attempt_trace _ _ _ _ _ _ _ _ _ E) as [t1 [Ht1 Hturn]].
    destruct (turn_counts _ _ _ _ Hturn) as [Hinv _].
    destruct ro as [[e|d1 errs1 li1]|p]; cbn [goes_on] in *.
    + destruct H as [Hr ->]. inversion Hr; subst e.
      rewrite Ht1 in Ht. apply trace_same in Ht. subst t1.
      pose proof (attempt_slots _ _ _ _ _ _ _ _ Hall E) as Hs. cbn in Hs.
      destruct Hs as [Hs|[errs' [-> [Hlen Hkept]]]]; [auto|]. right.
      exists errs'. repeat split; [exact Hlen|].
      intros k Hk. rewrite Hkept by lia. apply Hnil. lia.
    + destruct (turn_continues _ _ _ Hturn) as [Hlast _].
      destruct (next_attempt_in_range c n Hn Hlast) as [Hwrap Hn'].
      rewrite Hwrap in H.
      destruct (loop_extends _ _ _ _ _ _ _ _ _ H) as [t2 Ht2].
      pose proof (trace_split _ _ _ _ _ _ Ht1 Ht2 Ht). subst t.
      pose proof (attempt_slots _ _ _ _ _ _ _ _ Hall E) as [Hlen Hkept]. 
      assert (Hnil1 : forall k, (Z.to_nat (n + 1) <= k)%nat -> nth k errs1 ErrNil = ErrNil).
      { intros k Hk. rewrite Hkept by lia. apply Hnil. lia. }
      destruct (IH _ _ _ _ _ _ _ _ _ Hall Hn' Hnil1 H Ht2)
        as [Hr|[errs' [-> [Hlen' Hnil']]]]; [auto|]. right.
      exists errs'. repeat split; [congruence|].
      intros k Hk. apply Hnil'.
      destruct (counts_app t1 t2) as [Hc _]. rewrite Hc in Hk. lia.
    + destruct H as [Hr _]. discriminate.
Qed.

Lemma Do_slots (opts : list (Option Env)) (w : World Env) r w' t :
  is_nil (Err (ctx (configure opts)) (user w)) = true ->
  lastErrorOnly (configure opts) = false ->
  Do f opts w = Some (Ok r, w') ->
  trace w' = trace w ++ t ->
  r = ErrNil \/
  exists errs, r = Aggregate errs /\
    List.length errs = Z.to_nat (attempts (configure opts)) /\
    forall k, (invocations t <= k)%nat -> nth k errs ErrNil = ErrNil.
Proof.
  intros Hlive Hall. unfold Do. rewrite Hlive, Hall. cbn [negb].
  destruct (attempts (configure opts) =? 0).
  { intros H. inversion H. auto. }
  destruct (make_Error _) as [errs0|p0] eqn:Hmake; [|discriminate].
  apply make_Error_inv in Hmake. destruct Hmake as [-> _].
  intros H Ht.
  destruct (loop_slots _ _ _ _ _ _ _ _ _ _ Hall (first_attempt_in_range _)
              ltac:(intros k _; apply nth_repeat) H Ht)
    as [Hr|[errs [-> [Hlen Hnil]]]]; [auto|]. right.
  exists errs. rewrite repeat_length in Hlen. repeat split; auto.
Qed.

(** X4: in collect-all mode, with a context that is live on entry, [Do]
    returns nil or an aggregate as long as the budget, whatever the number
    of attempts made; the slots from the number of invocations on are
    nil. *)
Theorem Do_aggregate_shape (opts : list (Option Env)) (w : World Env) r w' t :
  is_nil (Err (ctx (configure opts)) (user w)) = true ->
  lastErrorOnly (configure opts) = false ->
  Do f opts w = Some (Ok r, w') ->
  trace w' = trace w ++ t ->
  r = ErrNil \/
  exists errs, r = Aggregate errs /\
    List.length errs = Z.to_nat (attempts (configure opts)) /\
    forall k, (invocations t <= k)%nat -> nth k errs ErrNil = ErrNil.
Proof. apply Do_slots. Qed.

Lemma nil_slot_panics (errs : list error) :
  In ErrNil errs -> exists p, error_Error (Aggregate errs) = Panic p.
Proof.
  intros Hin. rewrite error_Error_aggregate.
  assert (H : exists p, Error_lines 0 errs = Panic p).
  { generalize 0%nat. induction errs as [|v errs IH]; intros i; [destruct Hin|].
    cbn [Error_lines]. destruct Hin as [->|Hin]; [cbn; eauto|].
    destruct (error_Error v); cbn [rbind]; [|eauto].
    destruct (IH Hin (S i)) as [p ->]. cbn. eauto. }
  destruct H as [p ->]. cbn. eauto.
Qed.

(** X5: in collect-all mode, whenever [Do] returns its aggregate after fewer
    invocations than the budget (the predicate said stop, or the context
    was done during a wait), [Error()] on the error returned panics. *)
Theorem Do_short_run_message_panics (opts : list (Option Env)) (w : World Env)
        errs w' t :
  is_nil (Err (ctx (configure opts)) (user w)) = true ->
  lastErrorOnly (configure opts) = false ->
  Do f opts w = Some (Ok (Aggregate errs), w') ->
  trace w' = trace w ++ t ->
  Z.of_nat (invocations t) < attempts (configure opts) ->
  exists p, error_Error (Aggregate errs) = Panic p.
Proof.
  intros Hlive Hall H Ht Hshort.
  destruct (Do_slots _ _ _ _ _ Hlive Hall H Ht) as [Hr|[errs' [Hr [Hlen Hnil]]]];
    [discriminate|]. inversion Hr; subst errs'.
  apply nil_slot_panics. rewrite <- (Hnil (invocations t) (le_n _)).
  apply nth_In. lia.
Qed.

(** *** The context is done during a wait *)

Lemma set_index_again (errs errs' : list error) (i : Z) (v v' : error) :
  set_index errs i v = Ok errs' ->
  set_index errs' i v' = Ok (update errs' (Z.to_nat i) v').
Proof.
  intros H. apply set_index_inv in H. destruct H as [Hi [Hpos ->]].
  unfold set_index. rewrite update_length.
  destruct (Z.leb_spec 0 i) as [Hlo|Hlo]; [|lia].
  destruct (Z.ltb_spec i (Z.of_nat (List.length errs))) as [Hhi|Hhi]; [|lia].
  reflexivity.
Qed.

Lemma set_index_nth (errs errs' : list error) (i : Z) (v : error) :
  set_index errs i v = Ok errs' -> nth (Z.to_nat i) errs' ErrNil = v.
Proof.
  intros H. apply set_index_inv in H. destruct H as [Hi [_ ->]].
  now apply update_nth_same.
Qed.

Lemma attempt_cancelled c d errs n li w r w' t t0 :
  attempt f c d errs n li w = (r, w') ->
  trace w' = trace w ++ t ->
  In (EvWait t0 true) t ->
  (exists t', t = t' ++ [EvWait t0 true]) /\
  match r with
  | Ok (Return e) => cancelled_result c (Err (ctx c) (user w')) (Z.to_nat n) (Ok e)
  | Ok (Next _ _ _) => False
  | Panic p => cancelled_result c (Err (ctx c) (user w')) (Z.to_nat n) (Panic p)
  end.
Proof.
  revert t.
  unfold_turn; repeat step_match;
    intros t Hrun Ht; inversion Hrun; subst; clear Hrun;
    cbn [user trace] in *; rewrite <- ?app_assoc in Ht; cbn [app] in Ht;
    apply app_inv_head in Ht; subst; intros Hin; in_cases Hin.
  all: inversion Hin; subst; clear Hin.
  all: (split; [exists [EvOp e; EvRetryIf n e true; EvOnRetry n e; EvDelay n e];
                reflexivity|]).
  all: try match goal with
           | H1 : set_index ?l ?i _ = Ok ?l', H2 : set_index ?l' ?i _ = Panic _ |- _ =>
               rewrite (set_index_again _ _ _ _ _ H1) in H2; discriminate H2
           end.
  all: try match goal with
           | H : set_index ?l ?i ?v = Ok ?l', H' : at_index ?l' ?i = _ |- _ =>
               rewrite (at_index_set_index _ _ _ _ H) in H';
               first [discriminate H' | inversion H'; subst; clear H']
           end.
  all: unfold cancelled_result;
    repeat match goal with
      | H : lastErrorOnly _ = _ |- _ => rewrite H
      | H : UnwrapUnrecoverableError (Err _ _) = _ |- _ => rewrite H
      end; try reflexivity.
  all: eexists; split; [reflexivity|]; eapply set_index_nth; eassumption.
Qed.

Lemma loop_cancelled (fuel : nat) : forall (c : config Env) d errs n li w r w' t t0,
  0 <= n <= uint (attempts c - 1) ->
  attempt_loop fuel f c d errs n li w = Some (r, w') ->
  trace w' = trace w ++ t ->
  In (EvWait t0 true) t ->
  (exists t', t = t' ++ [EvWait t0 true]) /\
  n + Z.of_nat (invocations t) < attempts c /\
  cancelled_result c (Err (ctx c) (user w')) (Z.to_nat n + invocations t - 1) r.
Proof.
  induction fuel as [|fuel IH]; intros c d errs n li w r w' t t0 Hn H Ht Hin;
    [discriminate|].
  apply loop_step in H. destruct H as [[_ H]|[Hlt [ro [w1 [E H]]]]].
  - apply final_world in H. subst. apply no_events in Ht. subst. destruct Hin.
  - apply Z.ltb_lt in Hlt.
    destruct (attempt_trace _ _ _ _ _ _ _ _ _ E) as [t1 [Ht1 Hturn]].
    destruct (turn_counts _ _ _ _ Hturn) as [Hinv _].
    destruct ro as [[e|d1 errs1 li1]|p]; cbn [goes_on] in *.
    + destruct H; subst. rewrite Ht1 in Ht. apply trace_same in Ht. subst t1.
      destruct (attempt_cancelled _ _ _ _ _ _ _ _ _ _ E Ht1 Hin) as [Hlast Hres].
      split; [exact Hlast|]. rewrite Hinv.
      replace (Z.to_nat n + 1 - 1)%nat with (Z.to_nat n) by lia.
      split; [|exact Hres].
      destruct Hturn as [err Hturn].
      destruct Hturn as [[-> _]|[[-> _]|[[-> _]|[[-> _]|[d0 [done [-> [_ Hnl]]]]]]]];
        in_cases Hin.
      apply Z.eqb_neq in Hnl. pose proof (room_for_next c n Hn Hlt Hnl). lia.
    + destruct (turn_continues _ _ _ Hturn) as [Hnl [err [d0 Hshape]]].
      destruct (next_attempt_in_range c n Hn Hnl) as [Hwrap Hn'].
      rewrite Hwrap in H.
      destruct (loop_extends _ _ _ _ _ _ _ _ _ H) as [t2 Ht2].
      pose proof (trace_split _ _ _ _ _ _ Ht1 Ht2 Ht). subst t.
      apply in_app_or in Hin. destruct Hin as [Hin|Hin];
        [rewrite Hshape in Hin; in_cases Hin|].
      destruct (IH _ _ _ _ _ _ _ _ _ _ Hn' H Ht2 Hin) as [[t' ->] [Hroom Hres]].
      destruct (counts_app t1 (t' ++ [EvWait t0 true])) as [Hc _]. rewrite Hc, Hinv.
      split; [exists (t1 ++ t'); now rewrite app_assoc|]. split; [lia|].
      replace (Z.to_nat n + (1 + invocations (t' ++ [EvWait t0 true])) - 1)%nat
        with (Z.to_nat (n + 1) + invocations (t' ++ [EvWait t0 true]) - 1)%nat by lia.
      exact Hres.
    + destruct H; subst. rewrite Ht1 in Ht. apply trace_same in Ht. subst t1.
      destruct (attempt_cancelled _ _ _ _ _ _ _ _ _ _ E Ht1 Hin) as [Hlast Hres].
      split; [exact Hlast|]. rewrite Hinv.
      replace (Z.to_nat n + 1 - 1)%nat with (Z.to_nat n) by lia.
      split; [|exact Hres].
      destruct Hturn as [err Hturn].
      destruct Hturn as [[-> _]|[[-> _]|[[-> _]|[[-> _]|[d0 [done [-> [_ Hnl]]]]]]]];
        in_cases Hin.
      apply Z.eqb_neq in Hnl. pose proof (room_for_next c n Hn Hlt Hnl). lia.
Qed.

(** X9: when the context is done during a wait, nothing more is called: the
    run has made fewer invocations than the budget allows, and [Do] returns
    the error of the context, unwrapped; in last-error-only mode that error
    itself, in collect-all mode the aggregate in which it has taken the slot
    of the last attempt, in the place of the error of the operation. *)
Theorem Do_cancelled_during_wait (opts : list (Option Env)) (w : World Env)
        r w' t t0 :
  Do f opts w = Some (r, w') ->
  trace w' = trace w ++ t ->
  In (EvWait t0 true) t ->
  (exists t', t = t' ++ [EvWait t0 true]) /\
  Z.of_nat (invocations t) < attempts (configure opts) /\
  cancelled_result (configure opts) (Err (ctx (configure opts)) (user w'))
                   (invocations t - 1) r.
Proof.
  intros H Ht Hin. apply Do_inv in H.
  destruct H as [[-> _]|[_ [_ [errs [_ H]]]]].
  { apply no_events in Ht. subst. destruct Hin. }
  destruct (loop_cancelled _ _ _ _ _ _ _ _ _ _ _ (first_attempt_in_range _) H Ht Hin)
    as [Hlast [Hroom Hres]].
  split; [exact Hlast|]. split; [lia | exact Hres].
Qed.

(** *** A marker that is not on top *)

(** X10: when the first error of the operation carries the marker without
    being the marker value itself (the marker is wrapped, or sits in a slot
    of an aggregate), and the slice of errors can be made (in collect-all
    mode the budget is no more than the greatest length [make] accepts),
    [Do] panics in [UnwrapUnrecoverableError] after that one invocation,
    before the predicate is asked. *)
Theorem Do_hidden_marker_panics (opts : list (Option Env)) (w : World Env)
        (err : error) :
  is_nil (Err (ctx (configure opts)) (user w)) = true ->
  0 < attempts (configure opts) ->
  (lastErrorOnly (configure opts) = false ->
   attempts (configure opts) <= maxErrorLen) ->
  fst (f (user w)) = err ->
  IsReconverableError err = true ->
  (forall inner, err <> Unrecoverable inner) ->
  exists p w',
    Do f opts w = Some (Panic p, w') /\ trace w' = trace w ++ [EvOp err].
Proof.
  intros Hlive Hpos Hfits Hf Hmark Htop. unfold Do. rewrite Hlive. cbn [negb].
  destruct (Z.eqb_spec (attempts (configure opts)) 0); [lia|].
  assert (Hmake : exists errs,
             make_Error (if lastErrorOnly (configure opts) then 1
                         else attempts (configure opts)) = Ok errs).
  { destruct (lastErrorOnly (configure opts)).
    - exists [ErrNil]. reflexivity.
    - eexists. apply make_Error_fits. auto. }
  destruct Hmake as [errs ->]. cbn [attempt_loop].
  destruct (Z.ltb_spec 0 (attempts (configure opts))); [|lia]. cbn [negb].
  unfold_turn. destruct (f (user w)) as [err' s1] eqn:E. cbn in Hf. subst err'.
  assert (Hnonnil : is_nil err = false) by (destruct err; [discriminate|..]; reflexivity).
  rewrite Hnonnil. unfold UnwrapUnrecoverableError. rewrite Hmark.
  destruct err; try (do 2 eexists; split; reflexivity).
  exfalso. eapply Htop. reflexivity.
Qed.

(** *** A delay that does not change *)

Lemma attempt_steady c d errs n li w r w' t v :
  steady (delayFn c) d v ->
  attempt f c d errs n li w = (r, w') ->
  trace w' = trace w ++ t ->
  waits_exactly v t /\
  forall d1 errs1 li1, r = Ok (Next d1 errs1 li1) -> d1 = d.
Proof.
  intros Hsteady. revert t.
  unfold_turn; repeat step_match;
    intros t Hrun Ht; inversion Hrun; subst; clear Hrun;
    cbn [user trace] in *; rewrite <- ?app_assoc in Ht; cbn [app] in Ht;
    apply app_inv_head in Ht; subst.
  all: split; [intros t0 done Hin; in_cases Hin
              | intros d1 errs1 li1 Hr; try discriminate Hr].
  all: match goal with
       | E : delayFn _ _ _ _ _ = _ |- _ => rewrite Hsteady in E; inversion E; subst
       end.
  all: try (inversion Hin; reflexivity).
  all: inversion Hr; reflexivity.
Qed.

Lemma loop_steady (fuel : nat) : forall (c : config Env) d errs n li w r w' t v,
  steady (delayFn c) d v ->
  attempt_loop fuel f c d errs n li w = Some (r, w') ->
  trace w' = trace w ++ t ->
  waits_exactly v t.
Proof.
  induction fuel as [|fuel IH]; intros c d errs n li w r w' t v Hsteady H Ht;
    [discriminate|].
  apply loop_step in H. destruct H as [[_ H]|[_ [ro [w1 [E H]]]]].
  - apply final_world in H. subst. apply no_events in Ht. subst. intros t0 done [].
  - destruct (attempt_trace _ _ _ _ _ _ _ _ _ E) as [t1 [Ht1 _]].
    destruct (attempt_steady _ _ _ _ _ _ _ _ _ _ Hsteady E Ht1) as [Hw1 Hnext].
    destruct ro as [[e|d1 errs1 li1]|p].
    + destruct H; subst. rewrite Ht1 in Ht. apply trace_same in Ht. now subst.
    + rewrite (Hnext _ _ _ eq_refl) in H.
      destruct (loop_extends _ _ _ _ _ _ _ _ _ H) as [t2 Ht2].
      pose proof (trace_split _ _ _ _ _ _ Ht1 Ht2 Ht). subst t.
      pose proof (IH _ _ _ _ _ _ _ _ _ _ Hsteady H Ht2) as Hw2.
      intros t0 done Hin. apply in_app_or in Hin. destruct Hin; eauto.
    + destruct H; subst. rewrite Ht1 in Ht. apply trace_same in Ht. now subst.
Qed.

(** X12: with the fixed delay installed last among the options and no more
    than the maximum delay, every wait of a run of [Do] is asked to last
    exactly the fixed delay, and one such wait runs to its end between two
    invocations of the operation. *)
Theorem Do_fixed_delay (opts : list (Option Env)) (dopts : list (Option Env))
        (v : Z) (w : World Env) r w' t :
  let opts' := opts ++ [WithDelayFn FixDelayFn (dopts ++ [SetFixTimeFn v])] in
  v <= maxDelayTime (dconf (configure opts')) ->
  Do f opts' w = Some (r, w') ->
  trace w' = trace w ++ t ->
  waits_exactly v t /\
  (t = [] \/ (completed_waits t + 1 = invocations t)%nat).
Proof.
  intros opts' Hmax H Ht. split; [|apply (Do_counts _ _ _ _ _ H Ht)].
  assert (Hsteady : steady (delayFn (configure opts')) (dconf (configure opts')) v).
  { subst opts'. rewrite configure_last in *.
    set (c1 := applyOptions dopts (configure opts)) in *.
    assert (Hc : applyOptions (dopts ++ [SetFixTimeFn v]) (configure opts)
                 = SetFixTimeFn v c1)
      by (unfold applyOptions; now rewrite fold_left_app).
    unfold WithDelayFn in *. rewrite Hc in *.
    cbn [delayFn dconf SetFixTimeFn with_dconf maxDelayTime] in *.
    intros n e s. unfold bind, FixDelayFn, ret. cbn [delayTime maxDelayTime].
    destruct (Z.gtb_spec v (maxDelayTime (dconf c1))); [lia | reflexivity]. }
  apply Do_inv in H. destruct H as [[-> _]|[_ [_ [errs [_ H]]]]].
  { apply no_events in Ht. subst. intros t0 done []. }
  eapply loop_steady; eauto.
Qed.

(** *** What the error returned holds *)

Lemma op_errors_app (t1 t2 : list event) :
  op_errors (t1 ++ t2) = op_errors t1 ++ op_errors t2.
Proof. apply flat_map_app. Qed.

Lemma op_errors_length (t : list event) :
  List.length (op_errors t) = invocations t.
Proof.
  unfold invocations. induction t as [|ev t IH]; [reflexivity|].
  destruct ev; cbn; auto.
Qed.

Lemma no_cancel_app (t1 t2 : list event) :
  no_cancel (t1 ++ t2) -> no_cancel t1 /\ no_cancel t2.
Proof.
  intros H. split; intros d Hin; apply (H d); apply in_or_app; auto.
Qed.

Lemma is_nil_inv (e : error) : is_nil e = true -> e = ErrNil.
Proof. destruct e; (reflexivity || discriminate). Qed.

Lemma attempt_last c d errs n li w ro w' t :
  lastErrorOnly c = true ->
  attempt f c d errs n li w = (Ok ro, w') ->
  trace w' = trace w ++ t ->
  no_cancel t ->
  exists err, op_errors t = [err] /\
    match ro with
    | Return r => UnwrapUnrecoverableError err = Ok r
    | Next _ errs' li' =>
        li' = li /\ exists u, UnwrapUnrecoverableError err = Ok u /\
                              at_index errs' li = Ok u
    end.
Proof.
  intros Hlast. revert t. unfold_turn. rewrite Hlast. cbn [negb].
  repeat step_match;
    intros t Hrun Ht; inversion Hrun; subst; clear Hrun;
    cbn [user trace] in *; rewrite <- ?app_assoc in Ht; cbn [app] in Ht;
    apply app_inv_head in Ht; subst; intros Hnc.
  all: try (exfalso; eapply Hnc; cbn [In]; do 4 right; left; reflexivity).
  all: eexists; (split; [reflexivity|]).
  all: try match goal with
           | H : is_nil _ = true |- _ => apply is_nil_inv in H; subst; reflexivity
           end.
  all: repeat match goal with
       | H : set_index ?l ?i ?v = Ok ?l', H' : at_index ?l' ?i = _ |- _ =>
           rewrite (at_index_set_index _ _ _ _ H) in H'; inversion H'; subst; clear H'
       end.
  all: try assumption.
  split; [reflexivity|]. eexists. split; [eassumption|].
  eapply at_index_set_index; eassumption.
Qed.

Lemma loop_last (fuel : nat) : forall (c : config Env) d errs n li w r w' t,
  lastErrorOnly c = true ->
  attempt_loop fuel f c d errs n li w = Some (Ok r, w') ->
  trace w' = trace w ++ t ->
  no_cancel t ->
  (op_errors t = [] -> at_index errs li = Ok r) /\
  (op_errors t <> [] -> UnwrapUnrecoverableError (last (op_errors t) ErrNil) = Ok r).
Proof.
  induction fuel as [|fuel IH]; intros c d errs n li w r w' t Hlast H Ht Hnc;
    [discriminate|].
  apply loop_step in H. destruct H as [[_ H]|[_ [ro [w1 [E H]]]]].
  - pose proof (final_world _ _ _ _ _ _ H). subst. apply no_events in Ht. subst.
    unfold final, lift in H. rewrite Hlast in H. inversion H.
    split; [reflexivity | intros Hne; now destruct Hne].
  - destruct (attempt_trace _ _ _ _ _ _ _ _ _ E) as [t1 [Ht1 _]].
    destruct ro as [[e|d1 errs1 li1]|p].
    + destruct H as [Hr ->]. inversion Hr; subst e.
      rewrite Ht1 in Ht. apply trace_same in Ht. subst t1.
      destruct (attempt_last _ _ _ _ _ _ _ _ _ Hlast E Ht1 Hnc) as [err [Hop Hres]].
      rewrite Hop. split; [discriminate | intros _; exact Hres].
    + destruct (loop_extends _ _ _ _ _ _ _ _ _ H) as [t2 Ht2].
      pose proof (trace_split _ _ _ _ _ _ Ht1 Ht2 Ht). subst t.
      apply no_cancel_app in Hnc. destruct Hnc as [Hnc1 Hnc2].
      destruct (attempt_last _ _ _ _ _ _ _ _ _ Hlast E Ht1 Hnc1)
        as [err [Hop [-> [u [Hu Hat]]]]].
      destruct (IH _ _ _ _ _ _ _ _ _ Hlast H Ht2 Hnc2) as [Hnone Hsome].
      rewrite op_errors_app, Hop. split; [discriminate|]. intros _.
      destruct (op_errors t2) as [|e2 l2] eqn:Hop2.
      * cbn. rewrite Hnone in Hat by reflexivity. congruence.
      * change ([err] ++ e2 :: l2) with (err :: e2 :: l2).
        change (last (err :: e2 :: l2) ErrNil) with (last (e2 :: l2) ErrNil).
        apply Hsome. discriminate.
    + destruct H as [Hr _]. discriminate.
Qed.

(** X7: in last-error-only mode, whenever the operation was invoked and no
    wait was cut by the context, the error [Do] returns is the error of the
    last invocation with its marker removed, nil if that invocation
    succeeded. *)
Theorem Do_returns_last_error (opts : list (Option Env)) (w : World Env) r w' t :
  lastErrorOnly (configure opts) = true ->
  Do f opts w = Some (Ok r, w') ->
  trace w' = trace w ++ t ->
  no_cancel t ->
  op_errors t <> [] ->
  UnwrapUnrecoverableError (last (op_errors t) ErrNil) = Ok r.
Proof.
  intros Hlast H Ht Hnc Hne. apply Do_inv in H.
  destruct H as [[-> _]|[_ [_ [errs [_ H]]]]].
  { apply no_events in Ht. subst. now destruct Hne. }
  now apply (loop_last _ _ _ _ _ _ _ _ _ _ Hlast H Ht Hnc).
Qed.

Lemma attempt_collect c d errs n li w ro w' t :
  lastErrorOnly c = false ->
  attempt f c d errs n li w = (Ok ro, w') ->
  trace w' = trace w ++ t ->
  no_cancel t ->
  exists err, op_errors t = [err] /\
    match ro with
    | Return r =>
        r = ErrNil \/
        exists u errs', UnwrapUnrecoverableError err = Ok u /\
                        set_index errs n u = Ok errs' /\ r = Aggregate errs'
    | Next _ errs' _ =>
        exists u, UnwrapUnrecoverableError err = Ok u /\ set_index errs n u = Ok errs'
    end.
Proof.
  intros Hall. revert t. unfold_turn. rewrite Hall. cbn [negb].
  repeat step_match;
    intros t Hrun Ht; inversion Hrun; subst; clear Hrun;
    cbn [user trace] in *; rewrite <- ?app_assoc in Ht; cbn [app] in Ht;
    apply app_inv_head in Ht; subst; intros Hnc.
  all: try (exfalso; eapply Hnc; cbn [In]; do 4 right; left; reflexivity).
  all: eexists; (split; [reflexivity|]); eauto 6.
Qed.

Lemma loop_collect (fuel : nat) : forall (c : config Env) d errs n li w w' t errs',
  lastErrorOnly c = false ->
  0 <= n <= uint (attempts c - 1) ->
  attempt_loop fuel f c d errs n li w = Some (Ok (Aggregate errs'), w') ->
  trace w' = trace w ++ t ->
  no_cancel t ->
  (forall k, (k < Z.to_nat n)%nat -> nth k errs' ErrNil = nth k errs ErrNil) /\
  (forall j, (j < List.length (op_errors t))%nat ->
     UnwrapUnrecoverableError (nth j (op_errors t) ErrNil)
     = Ok (nth (Z.to_nat n + j) errs' ErrNil)).
Proof.
  induction fuel as [|fuel IH]; intros c d errs n li w w' t errs' Hall Hn H Ht Hnc;
    [discriminate|].
  apply loop_step in H. destruct H as [[_ H]|[_ [ro [w1 [E H]]]]].
  - pose proof (final_world _ _ _ _ _ _ H). subst. apply no_events in Ht. subst.
    unfold final, ret in H. rewrite Hall in H. inversion H; subst.
    split; [reflexivity|]. cbn. intros j Hj. lia.
  - destruct (attempt_trace _ _ _ _ _ _ _ _ _ E) as [t1 [Ht1 Hturn]].
    destruct ro as [[e|d1 errs1 li1]|p]; cbn [goes_on] in *.
    + destruct H as [Hr ->]. inversion Hr; subst e.
      rewrite Ht1 in Ht. apply trace_same in Ht. subst t1.
      destruct (attempt_collect _ _ _ _ _ _ _ _ _ Hall E Ht1 Hnc)
        as [err [Hop [Hnil|[u [errs2 [Hu [Hset Hr2]]]]]]]; [discriminate|].
      inversion Hr2; subst errs2. rewrite Hop.
      pose proof (set_index_nth _ _ _ _ Hset) as Hnth.
      apply set_index_inv in Hset. destruct Hset as [_ [_ ->]]. split.
      * intros k Hk. apply update_nth_other. lia.
      * intros j Hj. cbn in Hj. assert (j = 0)%nat by lia. subst j.
        rewrite Nat.add_0_r. cbn [nth]. now rewrite Hnth.
    + destruct (turn_continues _ _ _ Hturn) as [Hnl _].
      destruct (next_attempt_in_range c n Hn Hnl) as [Hwrap Hn'].
      rewrite Hwrap in H.
      destruct (loop_extends _ _ _ _ _ _ _ _ _ H) as [t2 Ht2].
      pose proof (trace_split _ _ _ _ _ _ Ht1 Ht2 Ht). subst t.
      apply no_cancel_app in Hnc. destruct Hnc as [Hnc1 Hnc2].
      destruct (attempt_collect _ _ _ _ _ _ _ _ _ Hall E Ht1 Hnc1)
        as [err [Hop [u [Hu Hset]]]].
      destruct (IH _ _ _ _ _ _ _ _ _ Hall Hn' H Ht2 Hnc2) as [Hbefore Hafter].
      pose proof (set_index_nth _ _ _ _ Hset) as Hnth.
      apply set_index_inv in Hset. destruct Hset as [_ [_ ->]].
      replace (Z.to_nat (n + 1)) with (S (Z.to_nat n)) in * by lia.
      rewrite op_errors_app, Hop. split.
      * intros k Hk. rewrite Hbefore by lia. apply update_nth_other. lia.
      * intros [|j] Hj; cbn [app nth].
        -- rewrite Nat.add_0_r, Hbefore by lia. now rewrite Hnth.
        -- cbn in Hj. rewrite Hafter by lia. f_equal. f_equal. lia.
    + destruct H as [Hr _]. discriminate.
Qed.

(** X6: in collect-all mode, when no wait was cut by the context, slot [j]
    of the aggregate [Do] returns holds the error of the invocation number
    [j] with its marker removed, for every invocation made. *)
Theorem Do_collects_errors (opts : list (Option Env)) (w : World Env) errs w' t :
  lastErrorOnly (configure opts) = false ->
  Do f opts w = Some (Ok (Aggregate errs), w') ->
  trace w' = trace w ++ t ->
  no_cancel t ->
  forall j, (j < invocations t)%nat ->
    UnwrapUnrecoverableError (nth j (op_errors t) ErrNil) = Ok (nth j errs ErrNil).
Proof.
  intros Hall H Ht Hnc j Hj. apply Do_inv in H.
  destruct H as [[-> _]|[_ [_ [errs0 [_ H]]]]].
  { apply no_events in Ht. subst. cbn in Hj. lia. }
  rewrite <- op_errors_length in Hj.
  destruct (loop_collect _ _ _ _ _ _ _ _ _ _ Hall (first_attempt_in_range _) H Ht Hnc)
    as [_ Hafter].
  now rewrite Hafter.
Qed.

(** *** Where a panic comes from *)






(** *** A budget no slice can hold *)

(** X19: in collect-all mode, with a context that is live on entry and a
    budget above the greatest length [make] accepts for the slice of
    errors, [Do] panics in [make] and the operation is not invoked. In
    last-error-only mode the slice has one slot and the budget is not
    bounded that way. *)
Theorem Do_budget_too_large (opts : list (Option Env)) (w : World Env) :
  is_nil (Err (ctx (configure opts)) (user w)) = true ->
  lastErrorOnly (configure opts) = false ->
  maxErrorLen < attempts (configure opts) ->
  Do f opts w = Some (Panic "makeslice: len out of range", w).
Proof.
  intros Hlive Hall Hlong. unfold Do. rewrite Hlive, Hall. cbn [negb].
  pose proof maxErrorLen_value as Hmax.
  destruct (Z.eqb_spec (attempts (configure opts)) 0); [lia|].
  now rewrite make_Error_too_long.
Qed.

End Runs.

Lemma Do_success_ends_run_witness :
  let t := [EvOp plainErr; EvRetryIf 0 plainErr true; EvOnRetry 0 plainErr;
            EvDelay 0 plainErr; EvWait 0 false;
            EvOp plainErr; EvRetryIf 1 plainErr true; EvOnRetry 1 plainErr;
            EvDelay 1 plainErr; EvWait 0 false; EvOp ErrNil] in
  Do (failsThenSucceeds 2) [] (mkWorld 0%nat []) = Some (Ok ErrNil, mkWorld 3%nat t) /\
  In (EvOp ErrNil) t /\
  exists t0, t = t0 ++ [EvOp ErrNil] /\ ~ In (EvOp ErrNil) t0.
Proof.
  assert (Hin : In (EvOp ErrNil)
            [EvOp plainErr; EvRetryIf 0 plainErr true; EvOnRetry 0 plainErr;
             EvDelay 0 plainErr; EvWait 0 false;
             EvOp plainErr; EvRetryIf 1 plainErr true; EvOnRetry 1 plainErr;
             EvDelay 1 plainErr; EvWait 0 false; EvOp ErrNil]).
  { cbn [In]. do 10 right. left. reflexivity. }
  split; [reflexivity|]. split; [exact Hin|].
  exact (proj2 (Do_success_ends_run (failsThenSucceeds 2) [] (mkWorld 0%nat [])
                  _ _ _ eq_refl eq_refl Hin)).
Defined.

(** ** Last-error-only mode *)

Section LastErrorOnly.

Context {Env : Type}.
Variables (f : Operation Env) (e : error) (c : config Env).
Hypothesis He_nonnil : is_nil e = false.
Hypothesis He_plain : IsReconverableError e = false.
Hypothesis Hf : forall s, fst (f s) = e.
Hypothesis Hlast : lastErrorOnly c = true.
Hypothesis Hpred : forall n s, fst (retryIfFn c n e s) = true.
Hypothesis Hdelay : forall n d s, exists t d', fst (delayFn c n e d s) = Ok (t, d').
Hypothesis Hctx : forall t s, fst (Done_first (ctx c) t s) = false.

Lemma attempt_last_only (d : delayConfig) (x : error) (n : Z) (w : World Env) :
  exists w' d' t,
    trace w' = trace w ++ t /\ invocations t = 1%nat /\
    attempt f c d [x] n 0 w
    = (if n =? uint (attempts c - 1)
       then Ok (Return e) else Ok (Next d' [e] 0), w').
Proof.
  unfold_turn.
  destruct (f (user w)) as [e' s1] eqn:E.
  pose proof (Hf (user w)) as He. rewrite E in He. cbn in He. subst e'.
  rewrite He_nonnil, Hlast. cbn [negb].
  rewrite (UnwrapUnrecoverableError_plain e He_plain). cbn.
  destruct (retryIfFn c n e s1) as [b s2] eqn:Ep.
  pose proof (Hpred n s1) as Hb. rewrite Ep in Hb. cbn in Hb. subst b. cbn.
  destruct (n =? uint (attempts c - 1)).
  - eexists. exists d. eexists. split; [|split; [|reflexivity]]; cbn [trace].
    + rewrite <- !app_assoc. reflexivity.
    + reflexivity.
  - cbn [user trace].
    destruct (delayFn c n e d (onRetryFn c n e s2)) as [rd s3] eqn:Ed.
    destruct (Hdelay n d (onRetryFn c n e s2)) as [t [d' Hd]].
    rewrite Ed in Hd. cbn in Hd. subst rd. cbn [user trace].
    destruct (Done_first (ctx c) t s3) as [done s4] eqn:Ec.
    pose proof (Hctx t s3) as Hdone. rewrite Ec in Hdone. cbn in Hdone. subst done.
    cbn. eexists. exists d'. eexists. split; [|split; [|reflexivity]]; cbn [trace].
    + rewrite <- !app_assoc. reflexivity.
    + reflexivity.
Qed.

Lemma loop_last_only (m : nat) :
  forall (n : Z) (d : delayConfig) (x : error) (w : World Env) (fuel : nat),
    0 <= n ->
    attempts c = n + Z.of_nat (S m) ->
    attempts c < 2 ^ 64 ->
    (S m <= fuel)%nat ->
    exists w' t,
      attempt_loop fuel f c d [x] n 0 w = Some (Ok e, w') /\
      trace w' = trace w ++ t /\ invocations t = S m.
Proof.
  assert (Hwrap : attempts c < 2 ^ 64 -> 0 < attempts c ->
                  uint (attempts c - 1) = attempts c - 1)
    by (intros; unfold uint; apply Z.mod_small; lia).
  induction m as [|m IH]; intros n d x w fuel Hn HA Hsmall Hfuel;
    (destruct fuel as [|fuel]; [lia|]); cbn [attempt_loop];
    (destruct (Z.ltb_spec n (attempts c)); [|lia]); cbn [negb];
    destruct (attempt_last_only d x n w) as [w1 [d1 [t1 [Ht1 [Hn1 Hrun]]]]];
    rewrite Hrun, Hwrap by lia.
  - destruct (Z.eqb_spec n (attempts c - 1)); [|lia]. eauto.
  - destruct (Z.eqb_spec n (attempts c - 1)); [lia|].
    assert (Hnext : uint (n + 1) = n + 1)
      by (unfold uint; rewrite Z.mod_small; lia).
    rewrite Hnext.
    destruct (IH (n + 1) d1 e w1 fuel) as [w2 [t2 [Hloop [Ht2 Hn2]]]];
      [lia | lia | lia | lia |].
    exists w2, (t1 ++ t2). rewrite Hloop. split; [reflexivity|]. split.
    + rewrite Ht2, Ht1, app_assoc. reflexivity.
    + unfold invocations in *. rewrite filter_app, length_app. lia.
Qed.

End LastErrorOnly.

(** X8: in last-error-only mode, for an operation that always fails with
    the same unmarked error, a predicate that accepts that error, a delay
    function that does not panic and a context that is never done, [Do]
    invokes the operation as often as the budget says and returns that
    error itself, not an aggregate. *)
Theorem Do_last_error_only {Env : Type} (f : Operation Env) (e : error)
        (opts : list (Option Env)) (w : World Env) :
  let c := configure opts in
  is_nil e = false ->
  IsReconverableError e = false ->
  (forall s, fst (f s) = e) ->
  lastErrorOnly c = true ->
  0 < attempts c < 2 ^ 64 ->
  (forall s, is_nil (Err (ctx c) s) = true) ->
  (forall t s, fst (Done_first (ctx c) t s) = false) ->
  (forall n s, fst (retryIfFn c n e s) = true) ->
  (forall n d s, exists t d', fst (delayFn c n e d s) = Ok (t, d')) ->
  exists w' t,
    Do f opts w = Some (Ok e, w') /\
    trace w' = trace w ++ t /\
    Z.of_nat (invocations t) = attempts c.
Proof.
  intros c Hnonnil Hplain Hf Hlast Hbudget Hlive Hctx Hpred Hdelay.
  unfold Do. fold c. rewrite Hlive, Hlast. cbn [negb repeat].
  destruct (Z.eqb_spec (attempts c) 0); [lia|].
  destruct (Z.to_nat (attempts c)) as [|m] eqn:Hm; [lia|].
  destruct (loop_last_only f e c Hnonnil Hplain Hf Hlast Hpred Hdelay Hctx
              m 0 (dconf c) ErrNil w (S (S m)))
    as [w' [t [Hloop [Ht Hn]]]]; try lia.
  exists w', t. repeat split; [exact Hloop | exact Ht | lia].
Qed.

Lemma Do_last_error_only_witness :
  let opts := [WithDelayFn FixDelayFn [SetFixTimeFn 100000000];
               WithLastErrorOnly (Env := unit) true; WithAttempts 2] in
  exists w' t,
    Do (alwaysFail plainErr) opts emptyWorld = Some (Ok plainErr, w') /\
    trace w' = trace emptyWorld ++ t /\
    Z.of_nat (invocations t) = 2.
Proof.
  apply (Do_last_error_only (alwaysFail plainErr) plainErr
           [WithDelayFn FixDelayFn [SetFixTimeFn 100000000];
            WithLastErrorOnly true; WithAttempts 2] emptyWorld).
  - reflexivity.
  - reflexivity.
  - intros s. reflexivity.
  - reflexivity.
  - split; reflexivity.
  - intros s. reflexivity.
  - intros t s. reflexivity.
  - intros n s. reflexivity.
  - intros n d s. cbn. destruct (_ >? _); do 2 eexists; reflexivity.
Defined.

(** ** What [errors.Is] finds in the error returned *)

(** X13: for an operation that always fails with the same error made by
    [errors.New] and a budget no more than the greatest length [make]
    accepts for the slice of errors, the aggregate [Do] returns once the
    budget is used up is matched by [errors.Is] against that error, and
    carries no marker. *)
Theorem Do_result_Is_cause {Env : Type} (f : Operation Env) (id : nat)
        (s : string) (budget : Z) (w : World Env) :
  (forall st, fst (f st) = errorString id s) ->
  0 < budget <= maxErrorLen ->
  exists errs w',
    Do f [WithAttempts budget] w = Some (Ok (Aggregate errs), w') /\
    errors_Is_errorString (Aggregate errs) id s = true /\
    IsReconverableError (Aggregate errs) = false.
Proof.
  intros Hf Hbudget.
  destruct (Do_budget_attempts f (errorString id s) budget w eq_refl eq_refl Hf Hbudget)
    as [w' [t [HDo _]]].
  exists (repeat (errorString id s) (Z.to_nat budget)), w'.
  split; [exact HDo|].
  destruct (Z.to_nat budget) as [|m] eqn:Hm; [lia|].
  split.
  - cbn. now rewrite Nat.eqb_refl, String.eqb_refl.
  - unfold IsReconverableError. cbn [errors_As_unrecoverable].
    generalize (S m). intros k. induction k as [|k IH]; [reflexivity|exact IH].
Qed.

Lemma Do_result_Is_cause_witness :
  0 < 3 <= maxErrorLen /\
  exists errs w',
    Do (alwaysFail plainErr) [WithAttempts 3] emptyWorld = Some (Ok (Aggregate errs), w') /\
    errors_Is_errorString (Aggregate errs) 7 "error" = true /\
    IsReconverableError (Aggregate errs) = false.
Proof.
  assert (Hbudget : 0 < 3 <= maxErrorLen) by (split; [reflexivity | discriminate]).
  split; [exact Hbudget|].
  apply (Do_result_Is_cause (alwaysFail plainErr) 7 "error" 3 emptyWorld).
  - intros st. reflexivity.
  - exact Hbudget.
Defined.

(** ** Delay policies, further *)

Lemma int64_small (z : Z) : - 2 ^ 63 <= z < 2 ^ 63 -> int64 z = z.
Proof. intros H. unfold int64. rewrite Z.mod_small; lia. Qed.

(** X17: the combination of the fixed and the random policy answers the
    fixed delay plus a random part below the random bound, as long as
    their sum fits a duration. *)
Theorem CombineDelayFn_fixed_random {Env : Type} (rand : Env -> Z * Env)
        (n : Z) (e : error) (c : delayConfig) (s : Env) :
  0 <= delayTime c ->
  0 < randomTime c ->
  delayTime c + randomTime c <= 2 ^ 63 ->
  exists v s',
    CombineDelayFn [FixDelayFn; RandomDelayFn rand] n e c s = (Ok (v, c), s') /\
    delayTime c <= v < delayTime c + randomTime c.
Proof.
  intros Hfix Hrand Hfit.
  unfold CombineDelayFn. cbn [combine_from]. unfold bind, FixDelayFn, ret.
  rewrite Z.add_0_l, int64_small by lia.
  unfold RandomDelayFn, bind, rand_Int63n, ret.
  destruct (Z.leb_spec (randomTime c) 0); [lia|].
  destruct (rand s) as [v s'].
  pose proof (Z.mod_pos_bound v (randomTime c) Hrand).
  rewrite int64_small by lia. do 2 eexists. split; [reflexivity|lia].
Qed.

Lemma CombineDelayFn_fixed_random_witness :
  let c := mkDelayConfig 100 (2 ^ 63 - 1) 0 100 in
  exists v s',
    CombineDelayFn [FixDelayFn; RandomDelayFn (constantSource 1234)] 0 plainErr c tt
    = (Ok (v, c), s') /\
    100 <= v < 100 + 100.
Proof.
  apply (CombineDelayFn_fixed_random (constantSource 1234) 0 plainErr
           (mkDelayConfig 100 (2 ^ 63 - 1) 0 100) tt); cbn; lia.
Defined.

Lemma BackOffDelayFn_shift_eq {Env : Type} (floorLog2 : Z -> Z) (n : Z)
      (err : error) (c : delayConfig) (s : Env) :
  let base := if delayTime c =? 0 then 1 else delayTime c in
  let maxExponent :=
    if maxBackOffN c =? 0 then uint (62 - floorLog2 base) else maxBackOffN c in
  BackOffDelayFn floorLog2 n err c s
  = (Ok (shl base (Z.min n maxExponent),
         mkDelayConfig (randomTime c) (maxDelayTime c) maxExponent base), s).
Proof.
  assert (Hmin : forall a b, (if a >? b then b else a) = Z.min a b).
  { intros a b. destruct (Z.gtb_spec a b); lia. }
  destruct c as [rt mx mb dt]. cbv zeta. unfold BackOffDelayFn, ret. fields.
  destruct (dt =? 0); fields; destruct (mb =? 0); fields; now rewrite Hmin.
Qed.

(** X18: when the logarithm the library computes for the base is at least
    the exact one and at most 62, the first backoff delays are the base
    doubled once per attempt, up to the exponent [62 - log], from which on
    the delay stays the same; no delay overflows. *)
Theorem BackOffDelayFn_doubles {Env : Type} (floorLog2 : Z -> Z) (n : Z)
        (err : error) (c : delayConfig) (s : Env) :
  0 < delayTime c ->
  maxBackOffN c = 0 ->
  Z.log2 (delayTime c) <= floorLog2 (delayTime c) <= 62 ->
  0 <= n ->
  let top := 62 - floorLog2 (delayTime c) in
  exists c',
    BackOffDelayFn floorLog2 n err c s
    = (Ok (delayTime c * 2 ^ Z.min n top, c'), s) /\
    delayTime c <= delayTime c * 2 ^ Z.min n top < 2 ^ 63.
Proof.
  intros Hbase Hfresh Hlog Hn top.
  assert (Hrange : delayTime c <= delayTime c * 2 ^ Z.min n top < 2 ^ 63).
  { assert (Hk : 0 <= Z.min n top <= top) by (subst top; lia).
    pose proof (Z.log2_spec (delayTime c) Hbase) as [_ Hup].
    assert (Hpow : 0 < 2 ^ Z.min n top) by (apply Z.pow_pos_nonneg; lia).
    split; [nia|].
    apply Z.lt_le_trans with (2 ^ Z.succ (Z.log2 (delayTime c)) * 2 ^ Z.min n top).
    - apply Z.mul_lt_mono_pos_r; lia.
    - rewrite <- Z.pow_add_r by (pose proof (Z.log2_nonneg (delayTime c)); lia).
      apply Z.pow_le_mono_r; subst top; lia. }
  pose proof (BackOffDelayFn_shift_eq floorLog2 n err c s) as Hrun.
  cbv zeta in Hrun. rewrite Hfresh in Hrun.
  destruct (Z.eqb_spec (delayTime c) 0); [lia|]. cbn [Z.eqb] in Hrun.
  assert (Htop : uint (62 - floorLog2 (delayTime c)) = top).
  { unfold uint; subst top; apply Z.mod_small.
    pose proof (Z.log2_nonneg (delayTime c)). lia. }
  rewrite Htop in Hrun. eexists. split; [|exact Hrange].
  rewrite Hrun. unfold shl. rewrite Z.shiftl_mul_pow2 by (subst top; lia).
  rewrite int64_small by lia. reflexivity.
Qed.

Lemma BackOffDelayFn_doubles_witness :
  let c := mkDelayConfig 0 (2 ^ 63 - 1) 0 100 in
  Z.log2 100 = 6 /\
  (exists c', BackOffDelayFn Z.log2 3 plainErr c tt = (Ok (100 * 2 ^ Z.min 3 56, c'), tt)) /\
  (exists c', BackOffDelayFn Z.log2 60 plainErr c tt = (Ok (100 * 2 ^ Z.min 60 56, c'), tt)).
Proof.
  split; [reflexivity|]. split.
  - destruct (BackOffDelayFn_doubles (Env := unit) Z.log2 3 plainErr
                (mkDelayConfig 0 (2 ^ 63 - 1) 0 100) tt)
      as [c' [H _]]; cbn; try lia. eauto.
  - destruct (BackOffDelayFn_doubles (Env := unit) Z.log2 60 plainErr
                (mkDelayConfig 0 (2 ^ 63 - 1) 0 100) tt)
      as [c' [H _]]; cbn; try lia. eauto.
Defined.

(** ** The runs these properties were tried on *)

Lemma Do_within_budget_witness :
  exists r w' t,
    Do (alwaysFail plainErr) [WithAttempts 3] emptyWorld = Some (r, w') /\
    trace w' = trace emptyWorld ++ t /\
    Z.of_nat (invocations t) <= Z.max 0 3.
Proof.
  do 3 eexists. split; [reflexivity|]. split; [reflexivity|].
  apply (Do_within_budget (alwaysFail plainErr) [WithAttempts 3] emptyWorld
           _ _ _ eq_refl eq_refl).
Defined.

Lemma Do_callbacks_and_waits_witness :
  exists r w' t,
    Do (alwaysFail plainErr) [WithAttempts 3] emptyWorld = Some (r, w') /\
    trace w' = trace emptyWorld ++ t /\
    callbacks t = 3%nat /\ accepted t = 3%nat /\
    completed_waits t = 2%nat /\ invocations t = 3%nat /\
    (callbacks t = accepted t /\
     (t = [] \/ (completed_waits t + 1 = invocations t)%nat)).
Proof.
  do 3 eexists. split; [reflexivity|]. split; [reflexivity|].
  do 4 (split; [reflexivity|]).
  apply (Do_callbacks_and_waits (alwaysFail plainErr) [WithAttempts 3] emptyWorld
           _ _ _ eq_refl eq_refl).
Defined.

Lemma Do_aggregate_shape_witness :
  let opts := [WithRetryIfFn (retryBelow 2); WithAttempts 5] in
  exists r w' t,
    Do (alwaysFail plainErr) opts emptyWorld = Some (Ok r, w') /\
    trace w' = trace emptyWorld ++ t /\
    invocations t = 3%nat /\
    (r = ErrNil \/
     exists errs, r = Aggregate errs /\
       List.length errs = Z.to_nat (attempts (configure opts)) /\
       forall k, (invocations t <= k)%nat -> nth k errs ErrNil = ErrNil).
Proof.
  do 3 eexists. split; [reflexivity|]. split; [reflexivity|].
  split; [reflexivity|].
  apply (Do_aggregate_shape (alwaysFail plainErr)
           [WithRetryIfFn (retryBelow 2); WithAttempts 5] emptyWorld
           _ _ _ eq_refl eq_refl eq_refl eq_refl).
Defined.

Lemma Do_short_run_message_panics_witness :
  let opts := [WithRetryIfFn (retryBelow 2); WithAttempts 5] in
  exists errs w' t,
    Do (alwaysFail plainErr) opts emptyWorld = Some (Ok (Aggregate errs), w') /\
    trace w' = trace emptyWorld ++ t /\
    Z.of_nat (invocations t) < attempts (configure opts) /\
    exists p, error_Error (Aggregate errs) = Panic p.
Proof.
  do 3 eexists. split; [reflexivity|]. split; [reflexivity|].
  split; [reflexivity|].
  apply (Do_short_run_message_panics (alwaysFail plainErr)
           [WithRetryIfFn (retryBelow 2); WithAttempts 5] emptyWorld
           _ _ _ eq_refl eq_refl eq_refl eq_refl eq_refl).
Defined.

Lemma Do_cancelled_during_wait_witness :
  let opts := [WithContext cancelledDuringWait; WithLastErrorOnly true] in
  let t := [EvOp plainErr; EvRetryIf 0 plainErr true; EvOnRetry 0 plainErr;
            EvDelay 0 plainErr; EvWait 0 true] in
  Do (alwaysFailing plainErr) opts (mkWorld false [])
  = Some (Ok Canceled, mkWorld true t) /\
  In (EvWait 0 true) t /\
  Z.of_nat (invocations t) < attempts (configure opts) /\
  cancelled_result (configure opts) Canceled (invocations t - 1) (Ok Canceled).
Proof.
  assert (Hin : In (EvWait 0 true)
            [EvOp plainErr; EvRetryIf 0 plainErr true; EvOnRetry 0 plainErr;
             EvDelay 0 plainErr; EvWait 0 true]).
  { cbn [In]. do 4 right. left. reflexivity. }
  split; [reflexivity|]. split; [exact Hin|].
  exact (proj2 (Do_cancelled_during_wait (alwaysFailing plainErr)
                  [WithContext cancelledDuringWait; WithLastErrorOnly true]
                  (mkWorld false []) _ _ _ 0 eq_refl eq_refl Hin)).
Defined.

Lemma Do_hidden_marker_panics_witness :
  let err := Wrap "wrapped" (Unrecoverable plainErr) in
  IsReconverableError err = true /\
  attempts (configure (@nil (Option unit))) <= maxErrorLen /\
  exists p w',
    Do (alwaysFail err) [] emptyWorld = Some (Panic p, w') /\
    trace w' = trace emptyWorld ++ [EvOp err].
Proof.
  assert (Hfits : attempts (configure (@nil (Option unit))) <= maxErrorLen)
    by discriminate.
  split; [reflexivity|]. split; [exact Hfits|].
  apply (Do_hidden_marker_panics (alwaysFail (Wrap "wrapped" (Unrecoverable plainErr)))
           [] emptyWorld).
  - reflexivity.
  - reflexivity.
  - intros _. exact Hfits.
  - reflexivity.
  - reflexivity.
  - intros inner. discriminate.
Defined.

Lemma Do_fixed_delay_witness :
  let opts := [WithAttempts 3; WithDelayFn FixDelayFn ([] ++ [SetFixTimeFn 250])] in
  exists r w' t,
    Do (alwaysFail plainErr) opts emptyWorld = Some (r, w') /\
    trace w' = trace emptyWorld ++ t /\
    In (EvWait 250 false) t /\
    waits_exactly 250 t /\
    (t = [] \/ (completed_waits t + 1 = invocations t)%nat).
Proof.
  do 3 eexists. split; [reflexivity|]. split; [reflexivity|].
  split; [cbn [In]; do 4 right; left; reflexivity|].
  apply (Do_fixed_delay (alwaysFail plainErr) [WithAttempts 3] [] 250 emptyWorld
           _ _ _ ltac:(cbn; lia) eq_refl eq_refl).
Defined.

Lemma Do_returns_last_error_witness :
  let opts := [WithLastErrorOnly (Env := unit) true] in
  exists r w' t,
    Do (alwaysFail (Unrecoverable plainErr)) opts emptyWorld = Some (Ok r, w') /\
    trace w' = trace emptyWorld ++ t /\
    no_cancel t /\ op_errors t <> [] /\
    r = plainErr /\
    UnwrapUnrecoverableError (last (op_errors t) ErrNil) = Ok r.
Proof.
  do 3 eexists. split; [reflexivity|]. split; [reflexivity|].
  assert (Hnc : no_cancel [EvOp (Unrecoverable plainErr);
                           EvRetryIf 0 (Unrecoverable plainErr) false])
    by (intros d Hin; in_cases Hin).
  split; [exact Hnc|]. split; [discriminate|]. split; [reflexivity|].
  apply (Do_returns_last_error (alwaysFail (Unrecoverable plainErr))
           [WithLastErrorOnly true] emptyWorld _ _ _ eq_refl eq_refl eq_refl Hnc).
  discriminate.
Defined.

Lemma Do_collects_errors_witness :
  let opts := [WithRetryIfFn (retryBelow 1); WithAttempts 4] in
  exists errs w' t,
    Do (alwaysFail (Unrecoverable plainErr)) opts emptyWorld
    = Some (Ok (Aggregate errs), w') /\
    trace w' = trace emptyWorld ++ t /\
    no_cancel t /\ invocations t = 2%nat /\
    forall j, (j < invocations t)%nat ->
      UnwrapUnrecoverableError (nth j (op_errors t) ErrNil) = Ok (nth j errs ErrNil).
Proof.
  do 3 eexists. split; [reflexivity|]. split; [reflexivity|].
  assert (Hnc : no_cancel
            [EvOp (Unrecoverable plainErr); EvRetryIf 0 (Unrecoverable plainErr) true;
             EvOnRetry 0 (Unrecoverable plainErr); EvDelay 0 (Unrecoverable plainErr);
             EvWait 0 false;
             EvOp (Unrecoverable plainErr); EvRetryIf 1 (Unrecoverable plainErr) false])
    by (intros d Hin; in_cases Hin).
  split; [exact Hnc|]. split; [reflexivity|].
  apply (Do_collects_errors (alwaysFail (Unrecoverable plainErr))
           [WithRetryIfFn (retryBelow 1); WithAttempts 4] emptyWorld
           _ _ _ eq_refl eq_refl eq_refl Hnc).
Defined.


Lemma Error_Error_defined_witness :
  let errs := [plainErr; ErrNil] in
  In ErrNil errs /\ exists p, error_Error (Aggregate errs) = Panic p.
Proof.
  assert (Hin : In ErrNil [plainErr; ErrNil]) by (cbn [In]; right; left; reflexivity).
  split; [exact Hin|].
  exact (proj2 (Error_Error_defined [plainErr; ErrNil]) Hin).
Defined.

Lemma Do_budget_too_large_witness :
  let opts := [WithAttempts (Env := unit) (2 ^ 63)] in
  maxErrorLen < attempts (configure opts) /\
  Do (alwaysFail plainErr) opts emptyWorld
  = Some (Panic "makeslice: len out of range", emptyWorld).
Proof.
  assert (Hlong : maxErrorLen < attempts (configure [WithAttempts (Env := unit) (2 ^ 63)]))
    by reflexivity.
  split; [exact Hlong|].
  apply (Do_budget_too_large (alwaysFail plainErr) [WithAttempts (2 ^ 63)] emptyWorld
           eq_refl eq_refl Hlong).
Defined.
